(** * Tsallis exoplanet-probability calculator: the numeric core of [app.py]

    The development embeds [calculate_exoplanet_probability] over Rocq's
    primitive binary64 floats.  Python's [float] and numpy's [float64] are
    IEEE-754 binary64 numbers, so [+], [-], [*], [/] and the comparisons are
    the primitive operations of [PrimFloat], specified by [SpecFloat].

    The two transcendental functions the program calls, [np.exp] and
    [np.power], belong to numpy and the platform's math library.  They are a
    parameter of the model (a record [libm]); theorems that need more than
    their type say which laws they assume, and a reference instance
    [ref_libm], computed in fixed point, satisfies every law and is used to
    evaluate the program on concrete inputs. *)

From Stdlib Require Import ZArith NArith Floats Lia Bool String Ascii List.
From Stdlib Require Import DecimalString DecimalN DecimalPos.
Import ListNotations.

Set Warnings "-inexact-float".

(* ================================================================== *)
(** * Part I: definitions *)
(* ================================================================== *)

(** ** Python results *)

(** The only exception the body can raise on floats: true division by zero. *)
Inductive py_exn : Type :=
| ZeroDivisionError.

Inductive result (A : Type) : Type :=
| Ok (a : A)
| Raise (e : py_exn).

Arguments Ok {A} a.
Arguments Raise {A} e.

Definition bind {A B : Type} (r : result A) (k : A -> result B) : result B :=
  match r with
  | Ok a => k a
  | Raise e => Raise e
  end.

Notation "x <- c1 ;; c2" := (bind c1 (fun x => c2))
  (at level 61, c1 at next level, right associativity).

(** [max(a, b)] of the Python builtins on two floats: the second argument
    replaces the first only when it compares greater. *)
Definition py_max (a b : float) : float :=
  if (a <? b)%float then b else a.

(** [a / b] on Python floats raises when the divisor compares equal to zero. *)
Definition py_truediv (a b : float) : result float :=
  if (b =? 0)%float then Raise ZeroDivisionError else Ok (a / b)%float.

(** ** The math library *)

Record libm : Type := {
  np_exp : float -> float;
  np_power : float -> float -> float
}.

(** ** [format(x, '.2f')] on a float

    Python prints the exact binary value rounded to two decimals, ties to
    even; a negative sign is kept even when the digits are all zero, and the
    non-finite values print as [nan], [inf] and [-inf]. *)

(** [round_half_even n d] is the integer nearest to [n / d] ([d > 0]). *)
Definition round_half_even (n d : Z) : Z :=
  let q := (n / d)%Z in
  let r := (n mod d)%Z in
  match (2 * r ?= d)%Z with
  | Lt => q
  | Gt => (q + 1)%Z
  | Eq => if Z.even q then q else (q + 1)%Z
  end.

(** Hundredths of [m * 2^e], rounded. *)
Definition hundredths (m : positive) (e : Z) : Z :=
  match e with
  | Zneg k => round_half_even (Zpos m * 100) (2 ^ Zpos k)
  | _ => (Zpos m * 100 * 2 ^ e)%Z
  end.

Definition digit_char (d : Z) : ascii :=
  ascii_of_nat (48 + Z.to_nat d).

Definition dec_string (n : Z) : string :=
  NilZero.string_of_uint (N.to_uint (Z.to_N n)).

(** The digits of [h] hundredths: integer part, point, two decimals. *)
Definition fixed2 (h : Z) : string :=
  (dec_string (h / 100)
   ++ String "."%char
        (String (digit_char ((h mod 100) / 10))
           (String (digit_char ((h mod 100) mod 10)) EmptyString)))%string.

Definition format_2f (x : float) : string :=
  match Prim2SF x with
  | S754_nan => "nan"%string
  | S754_infinity false => "inf"%string
  | S754_infinity true => "-inf"%string
  | S754_zero false => "0.00"%string
  | S754_zero true => "-0.00"%string
  | S754_finite false m e => fixed2 (hundredths m e)
  | S754_finite true m e => String "-"%char (fixed2 (hundredths m e))
  end.

(** ** Reading a percentage string back: [^-?\d+\.\d{2}%$] *)

Definition is_digit (c : ascii) : bool :=
  (48 <=? nat_of_ascii c)%nat && (nat_of_ascii c <=? 57)%nat.

Definition digit_val (c : ascii) : Z :=
  Z.of_nat (nat_of_ascii c - 48).

(** Consumes a non-empty run of digits; returns its value and the rest. *)
Fixpoint read_digits (s : string) (acc : Z) : Z * string :=
  match s with
  | String c s' =>
      if is_digit c then read_digits s' (10 * acc + digit_val c)%Z else (acc, s)
  | EmptyString => (acc, s)
  end.

Definition starts_with_digit (s : string) : bool :=
  match s with
  | String c _ => is_digit c
  | EmptyString => false
  end.

(** The body after the optional sign: digits, a point, two digits, [%]. *)
Definition parse_unsigned (s : string) : option Z :=
  if starts_with_digit s then
    match read_digits s 0 with
    | (ip, String "."%char (String d1 (String d2 (String "%"%char EmptyString)))) =>
        if is_digit d1 && is_digit d2
        then Some (ip * 100 + 10 * digit_val d1 + digit_val d2)%Z
        else None
    | _ => None
    end
  else None.

(** [parse_pct s] is the value of [s] in hundredths when [s] matches
    [^-?\d+\.\d{2}%$], and [None] otherwise. *)
Definition parse_pct (s : string) : option Z :=
  match s with
  | String "-"%char s' => option_map Z.opp (parse_unsigned s')
  | _ => parse_unsigned s
  end.

Definition matches_pct (s : string) : bool :=
  match parse_pct s with
  | Some _ => true
  | None => false
  end.

Fixpoint has_char (c : ascii) (s : string) : bool :=
  match s with
  | String c' s' => Ascii.eqb c c' || has_char c s'
  | EmptyString => false
  end.

(** ** The module's globals (app.py, lines 5-9) *)

Record module_globals : Type := {
  Q_INDEX : float;
  KAPPA : float;
  A_MET : float;
  ALPHA_MASS : float;
  BETA_MASS : float
}.

Definition app_globals : module_globals := {|
  Q_INDEX := 1.8591;
  KAPPA := 0.2121;
  A_MET := 1.0789;
  ALPHA_MASS := 0.9825;
  BETA_MASS := 2.2413
|}.

(** ** [calculate_exoplanet_probability] (app.py, lines 11-40)

    [float(stellar_mass)] and [float(metallicity)] are the identity on
    floats; the arguments are taken after that conversion. *)
Definition calculate_exoplanet_probability
  (L : libm) (G : module_globals) (stellar_mass metallicity : float) : result string :=
  let M := stellar_mass in
  let Z := metallicity in
  let Z_term := np_power L 10.0 (A_MET G * Z) in
  let M_term := (np_power L (py_max M 1e-5) (ALPHA_MASS G)
                 * np_exp L (- BETA_MASS G * M))%float in
  let Phi := (KAPPA G * Z_term * M_term)%float in
  let base := (1.0 - (1.0 - Q_INDEX G) * Phi)%float in
  let base := if (base <=? 0)%float then 0.0%float else base in
  e <- py_truediv 1.0 (1.0 - Q_INDEX G) ;;
  let eq_minus_Phi := np_power L base e in
  let P := (1.0 - eq_minus_Phi)%float in
  let P_percent := (P * 100)%float in
  Ok (format_2f P_percent ++ "%")%string.

(** The function as the application calls it, with the module's globals. *)
Definition app_calculate (L : libm) (M Z : float) : result string :=
  calculate_exoplanet_probability L app_globals M Z.

(** ** The locals of the body, one definition per assignment *)

Definition Z_term (L : libm) (G : module_globals) (Z : float) : float :=
  np_power L 10.0 (A_MET G * Z).

Definition M_term (L : libm) (G : module_globals) (M : float) : float :=
  (np_power L (py_max M 1e-5) (ALPHA_MASS G) * np_exp L (- BETA_MASS G * M))%float.

Definition Phi (L : libm) (G : module_globals) (M Z : float) : float :=
  (KAPPA G * Z_term L G Z * M_term L G M)%float.

(** [base] as assigned on line 26, before the test of line 28. *)
Definition base_raw (L : libm) (G : module_globals) (M Z : float) : float :=
  (1.0 - (1.0 - Q_INDEX G) * Phi L G M Z)%float.

(** The test of line 28: does the clamp fire? *)
Definition clamp_fires (L : libm) (G : module_globals) (M Z : float) : bool :=
  (base_raw L G M Z <=? 0)%float.

(** [base] as it reaches line 31. *)
Definition base (L : libm) (G : module_globals) (M Z : float) : float :=
  if clamp_fires L G M Z then 0.0%float else base_raw L G M Z.

(** The exponent [1.0 / (1.0 - Q_INDEX)] when the division does not raise. *)
Definition q_exponent (G : module_globals) : float :=
  (1.0 / (1.0 - Q_INDEX G))%float.

Definition eq_minus_Phi (L : libm) (G : module_globals) (M Z : float) : float :=
  np_power L (base L G M Z) (q_exponent G).

Definition P (L : libm) (G : module_globals) (M Z : float) : float :=
  (1.0 - eq_minus_Phi L G M Z)%float.

Definition P_percent (L : libm) (G : module_globals) (M Z : float) : float :=
  (P L G M Z * 100)%float.

(** ** A reference math library, computed in fixed point

    Numbers are integers scaled by [2^128].  [exp] reduces its argument by
    multiples of [ln 2] and sums the Taylor series; [ln] splits off the binary
    exponent and sums the [atanh] series; [x ** y] is [exp (y * ln x)] with
    the special cases of C's [pow].  Results are rounded to binary64 by
    [SpecFloat]'s own rounding. *)

Definition fx_bits : Z := 128.
Definition fx_one : Z := 2 ^ fx_bits.

(** Horner form of [1 + r/j * (1 + r/(j+1) * (...))], [fuel] levels deep. *)
Fixpoint exp_series (fuel : nat) (j : Z) (r : Z) : Z :=
  match fuel with
  | O => fx_one
  | S f => (fx_one + (r * exp_series f (j + 1) r) / (fx_one * j))%Z
  end.

Definition exp_taylor (r : Z) : Z := exp_series 40 1 r.

(** Horner form of [1/(2j+1) + z2 * (1/(2j+3) + z2 * (...))]. *)
Fixpoint atanh_series (fuel : nat) (j : Z) (z2 : Z) : Z :=
  match fuel with
  | O => (fx_one / (2 * j + 1))%Z
  | S f => (fx_one / (2 * j + 1) + (z2 * atanh_series f (j + 1) z2) / fx_one)%Z
  end.

(** [ln w] for a fixed-point [w] in [[1, 2]]: [2 * atanh ((w-1)/(w+1))]. *)
Definition ln_mantissa (w : Z) : Z :=
  let z := (((w - fx_one) * fx_one) / (w + fx_one))%Z in
  let z2 := ((z * z) / fx_one)%Z in
  (2 * ((z * atanh_series 45 0 z2) / fx_one))%Z.

Definition ln2_fx : Z := Eval vm_compute in ln_mantissa (2 * fx_one).

(** [ln (m * 2^e)]. *)
Definition ln_fx (m : positive) (e : Z) : Z :=
  let d := Zpos (digits2_pos m) in
  ((e + d - 1) * ln2_fx + ln_mantissa (Zpos m * 2 ^ (fx_bits - (d - 1))))%Z.

(** [exp u] for [u >= 0]: a fixed-point mantissa and a binary exponent. *)
Definition exp_pos (u : Z) : Z * Z :=
  (exp_taylor (u mod ln2_fx), (u / ln2_fx)%Z).

(** [exp u] rounded to binary64; a negative [u] goes through [1 / exp (-u)]. *)
Definition exp_fx (u : Z) : spec_float :=
  if (u <? 0)%Z then
    let '(t, k) := exp_pos (- u) in
    if (1100 <? k)%Z then S754_zero false
    else binary_normalize prec emax ((fx_one * fx_one) / t) (- k - fx_bits) false
  else
    let '(t, k) := exp_pos u in
    if (1100 <? k)%Z then S754_infinity false
    else binary_normalize prec emax t (k - fx_bits) false.

(** The fixed-point value of the float [(-1)^s * m * 2^e], rounded down. *)
Definition to_fx (s : bool) (m : positive) (e : Z) : Z :=
  match (e + fx_bits)%Z with
  | Zneg k => (cond_Zopp s (Zpos m) / 2 ^ Zpos k)%Z
  | sh => (cond_Zopp s (Zpos m) * 2 ^ sh)%Z
  end.

(** The product of the float [(-1)^s * m * 2^e] and the fixed-point [l]. *)
Definition mul_fx (s : bool) (m : positive) (e : Z) (l : Z) : Z :=
  match e with
  | Zneg k => (cond_Zopp s (Zpos m) * l / 2 ^ Zpos k)%Z
  | _ => (cond_Zopp s (Zpos m) * l * 2 ^ e)%Z
  end.

Definition ref_exp (x : float) : float :=
  match Prim2SF x with
  | S754_nan => nan
  | S754_infinity false => infinity
  | S754_infinity true => 0%float
  | S754_zero _ => 1%float
  | S754_finite s m e => SF2Prim (exp_fx (to_fx s m e))
  end.

(** Is [m * 2^e] an integer, an odd integer? *)
Definition is_int (m : positive) (e : Z) : bool :=
  match e with
  | Zneg k => (Zpos m mod 2 ^ Zpos k =? 0)%Z
  | _ => true
  end.

Definition is_odd_int (m : positive) (e : Z) : bool :=
  match e with
  | Z0 => Z.odd (Zpos m)
  | Zpos _ => false
  | Zneg k => (Zpos m mod 2 ^ Zpos k =? 0)%Z && Z.odd (Zpos m / 2 ^ Zpos k)
  end.

(** [x ** y] for finite [x > 0] and finite [y] other than zero. *)
Definition pow_core (mx : positive) (ex : Z) (sy : bool) (my : positive) (ey : Z) : float :=
  SF2Prim (exp_fx (mul_fx sy my ey (ln_fx mx ex))).

Definition ref_power (x y : float) : float :=
  match Prim2SF y with
  | S754_zero _ => 1%float
  | S754_nan => if (x =? 1)%float then 1%float else nan
  | S754_infinity sy =>
      match Prim2SF x with
      | S754_nan => nan
      | _ =>
          if (abs x =? 1)%float then 1%float
          else if (abs x <? 1)%float
               then (if sy then infinity else 0%float)
               else (if sy then 0%float else infinity)
      end
  | S754_finite sy my ey =>
      match Prim2SF x with
      | S754_nan => nan
      | S754_zero sx =>
          if sy then (if sx && is_odd_int my ey then neg_infinity else infinity)
          else (if sx && is_odd_int my ey then neg_zero else 0%float)
      | S754_infinity false => if sy then 0%float else infinity
      | S754_infinity true =>
          if sy then (if is_odd_int my ey then neg_zero else 0%float)
          else (if is_odd_int my ey then neg_infinity else infinity)
      | S754_finite false mx ex => pow_core mx ex sy my ey
      | S754_finite true mx ex =>
          if is_int my ey
          then (if is_odd_int my ey
                then (- pow_core mx ex sy my ey)%float
                else pow_core mx ex sy my ey)
          else nan
      end
  end.

Definition ref_libm : libm := {| np_exp := ref_exp; np_power := ref_power |}.

(** ** The nine-step algorithm of the specification *)

Module Spec.

Definition qIndex : float := 1.8591.
Definition kappa : float := 0.2121.
Definition aMet : float := 1.0789.
Definition alphaMass : float := 0.9825.
Definition betaMass : float := 2.2413.

(** The larger of two numbers. *)
Definition fmax (a b : float) : float :=
  if (a <=? b)%float then b else a.

Definition mEff (M : float) : float := fmax M 1e-5.

Definition zTerm (L : libm) (Z : float) : float :=
  np_power L 10 (aMet * Z).

Definition mTerm (L : libm) (M : float) : float :=
  (np_power L (mEff M) alphaMass * np_exp L (- betaMass * M))%float.

Definition phi (L : libm) (M Z : float) : float :=
  (kappa * zTerm L Z * mTerm L M)%float.

Definition tsallisBase (L : libm) (M Z : float) : float :=
  (1 - (1 - qIndex) * phi L M Z)%float.

Definition clampedBase (L : libm) (M Z : float) : float :=
  if (tsallisBase L M Z <=? 0)%float then 0%float else tsallisBase L M Z.

Definition eqMinusPhi (L : libm) (M Z : float) : float :=
  np_power L (clampedBase L M Z) (1 / (1 - qIndex)).

Definition probability (L : libm) (M Z : float) : float :=
  (1 - eqMinusPhi L M Z)%float.

Definition compute (L : libm) (M Z : float) : string :=
  (format_2f (probability L M Z * 100) ++ "%")%string.

End Spec.

(** ** Laws of a math library

    Each law holds of C's [exp] and [pow] on binary64; a theorem names the
    ones it relies on. *)

(** [exp] never returns a negative number. *)
Definition exp_sign_law (L : libm) : Prop :=
  forall x, (np_exp L x <? 0)%float = false.

(** [exp] of a number in [[-8, 0]] lies in [(0, 1]]. *)
Definition exp_range_law (L : libm) : Prop :=
  forall x, (-8 <=? x)%float = true -> (x <=? 0)%float = true ->
            (0 <? np_exp L x)%float = true /\ (np_exp L x <=? 1)%float = true.

(** A positive base never gives a negative power. *)
Definition pow_sign_law (L : libm) : Prop :=
  forall x y, (0 <? x)%float = true -> (np_power L x y <? 0)%float = false.

(** A positive base and a number as exponent give a number. *)
Definition pow_number_law (L : libm) : Prop :=
  forall x y, (0 <? x)%float = true -> is_nan y = false ->
              is_nan (np_power L x y) = false.

(** A base of at least one raised to a negative power lies in [[0, 1]]. *)
Definition pow_unit_law (L : libm) : Prop :=
  forall x y, (1 <=? x)%float = true -> (y <? 0)%float = true ->
              (0 <=? np_power L x y)%float = true /\
              (np_power L x y <=? 1)%float = true.

(** Ten to a power in [[-2, 2]] lies in [[2^-10, 2^10]]. *)
Definition pow_ten_law (L : libm) : Prop :=
  forall y, (-2 <=? y)%float = true -> (y <=? 2)%float = true ->
            (0.0009765625 <=? np_power L 10 y)%float = true /\
            (np_power L 10 y <=? 1024)%float = true.

(** Not-a-number raised to any power but zero is not a number. *)
Definition pow_nan_law (L : libm) : Prop :=
  forall y, (y =? 0)%float = false -> is_nan (np_power L nan y) = true.

(** ** Binary64 rounding, as [SpecFloat] computes it *)

Definition fexp64 (e : Z) : Z := fexp prec emax e.

Definition rec0 (m : Z) : shr_record :=
  {| shr_m := m; shr_r := false; shr_s := false |}.

(** The float [binary_round_aux] builds from the rounded mantissa [m1] at the
    canonical exponent [e1]. *)
Definition bra_result (s : bool) (m1 e1 : Z) : spec_float :=
  if (m1 =? 0)%Z then S754_zero s
  else if (m1 =? 2 ^ 53)%Z
       then (if (e1 + 1 <=? 971)%Z then S754_finite s (Z.to_pos (2 ^ 52)) (e1 + 1)
             else S754_infinity s)
       else (if (e1 <=? 971)%Z then S754_finite s (Z.to_pos m1) e1
             else S754_infinity s).

Definition bra_finish (s : bool) (p : shr_record * Z) : spec_float :=
  match shr_m (fst p) with
  | Z0 => S754_zero s
  | Zpos m => if (snd p <=? emax - prec)%Z then S754_finite s m (snd p)
              else S754_infinity s
  | Zneg _ => S754_nan
  end.

(** A mantissa and exponent in canonical form. *)
Definition canon (m : positive) (e : Z) : Prop :=
  fexp64 (Zpos (digits2_pos m) + e) = e.

(** The order of canonical positive floats: by exponent, then mantissa. *)
Definition lexle (m1 : positive) (e1 : Z) (m2 : positive) (e2 : Z) : Prop :=
  (e1 < e2 \/ (e1 = e2 /\ Zpos m1 <= Zpos m2))%Z.

(** [R], of sign [s], is at least (at most) the float [m * 2^e] in magnitude. *)
Definition round_ge (R : spec_float) (s : bool) (ml : positive) (el : Z) : Prop :=
  R = S754_infinity s \/
  exists m' e', R = S754_finite s m' e' /\ lexle ml el m' e'.

Definition round_le (R : spec_float) (s : bool) (mu : positive) (eu : Z) : Prop :=
  R = S754_zero s \/
  exists m' e', R = S754_finite s m' e' /\ lexle m' e' mu eu.

Definition one_m : positive := 4503599627370496.
Definition hundred_m : positive := 7036874417766400.

(** ** Shapes of a binary64 value *)

Definition sf_neg (x : spec_float) : bool :=
  match x with
  | S754_infinity true | S754_finite true _ _ => true
  | _ => false
  end.

Definition sf_pos (x : spec_float) : bool :=
  match x with
  | S754_infinity false | S754_finite false _ _ => true
  | _ => false
  end.

Definition sf_zero (x : spec_float) : bool :=
  match x with
  | S754_zero _ => true
  | _ => false
  end.

Definition sf_nan (x : spec_float) : bool :=
  match x with
  | S754_nan => true
  | _ => false
  end.

(** ** Decimal numerals *)

(** The number a decimal [uint] denotes, digits appended to [acc]. *)
Fixpoint uint_val (d : Decimal.uint) (acc : Z) : Z :=
  match d with
  | Decimal.Nil => acc
  | Decimal.D0 l => uint_val l (10 * acc)
  | Decimal.D1 l => uint_val l (10 * acc + 1)
  | Decimal.D2 l => uint_val l (10 * acc + 2)
  | Decimal.D3 l => uint_val l (10 * acc + 3)
  | Decimal.D4 l => uint_val l (10 * acc + 4)
  | Decimal.D5 l => uint_val l (10 * acc + 5)
  | Decimal.D6 l => uint_val l (10 * acc + 6)
  | Decimal.D7 l => uint_val l (10 * acc + 7)
  | Decimal.D8 l => uint_val l (10 * acc + 8)
  | Decimal.D9 l => uint_val l (10 * acc + 9)
  end.

(** ** Proof steps used throughout *)

(** Splits a conjunction into its parts, leaving equations alone. *)
Ltac split_conj := repeat match goal with |- _ /\ _ => split end.

(** Closes an inequality between integer constants. *)
Ltac numeric := vm_compute; discriminate.

(** Closes [canon m e] for a constant mantissa and exponent. *)
Ltac canon_const := vm_compute; reflexivity.

(** ** Further laws of the math library, used for the edge cases *)

(** A base other than one raised to not-a-number is not a number. *)
Definition pow_nan_exponent_law (L : libm) : Prop :=
  forall x, (x =? 1)%float = false -> is_nan (np_power L x nan) = true.

(** [0 ** y]: infinite for a negative exponent, zero for a positive one. *)
Definition pow_zero_law (L : libm) : Prop :=
  forall y,
    ((y <? 0)%float = true -> np_power L 0 y = infinity) /\
    ((0 <? y)%float = true -> np_power L 0 y = 0%float).

(** [1 ** y] is one. *)
Definition pow_one_law (L : libm) : Prop :=
  forall y, np_power L 1 y = 1%float.

(** [inf ** y] is zero for a negative exponent. *)
Definition pow_inf_law (L : libm) : Prop :=
  forall y, (y <? 0)%float = true -> np_power L infinity y = 0%float.

(** The constants of lines 5 to 9 with a negative [KAPPA]: the potential
    is then negative and the branch of line 29 is reachable. *)
Definition negated_kappa_globals : module_globals :=
  {| Q_INDEX := 1.8591; KAPPA := -21.21; A_MET := 1.0789;
     ALPHA_MASS := 0.9825; BETA_MASS := 2.2413 |}.

(** ** The module as a program over the interpreter's name spaces

    The definitions above give the function as a function of its two
    arguments and of the module's constants.  Python itself runs the body
    against two name spaces: the module's globals, which any assignment at
    module level or under a [global] declaration can rebind, and the
    locals of the call.  The definitions below keep the two name spaces
    explicit, so that what the body reads and writes is a property of its
    text.  [float], [max], [np.exp] and [np.power] are the operations
    above, taken as functions of their arguments. *)

(** A name space: names to floats. *)
Definition env : Type := string -> option float.

Definition empty_env : env := fun _ => None.

Definition upd (E : env) (n : string) (v : float) : env :=
  fun n' => if String.eqb n n' then Some v else E n'.

(** Expressions of the module, with names resolved as Python's compiler
    resolves them: a name assigned in the function is a local, any other
    name is a global. *)
Inductive expr : Type :=
| EConst (c : float)
| EGlobal (n : string)
| ELocal (n : string)
| ENeg (a : expr)
| ESub (a b : expr)
| EMul (a b : expr)
| EDiv (a b : expr)
| EFloat (a : expr)
| EMax (a b : expr)
| EExp (a : expr)
| EPower (a b : expr).

Arguments EConst c%_float.
Arguments EGlobal n%_string.
Arguments ELocal n%_string.

(** Statements.  [SGlobalAssign] is an assignment that binds a global: one
    at module level, or one in a function under a [global] declaration. *)
Inductive stmt : Type :=
| SSkip
| SSeq (s1 s2 : stmt)
| SAssign (n : string) (e : expr)
| SGlobalAssign (n : string) (e : expr)
| SIfLe (a b : expr) (body : stmt)
| SReturnPercent (e : expr).

Arguments SAssign n%_string e.
Arguments SGlobalAssign n%_string e.

(** A suite of statements, in order. *)
Definition block (ss : list stmt) : stmt := fold_right SSeq SSkip ss.

(** What stops an evaluation: an exception of the arithmetic, or a name
    that is not bound ([NameError], [UnboundLocalError]). *)
Inductive fault : Type :=
| Exn (e : py_exn)
| Unbound (n : string).

Inductive answer : Type :=
| Val (v : float)
| Fault (f : fault).

Definition and_then (a : answer) (k : float -> answer) : answer :=
  match a with
  | Val v => k v
  | Fault f => Fault f
  end.

Definition lookup (E : env) (n : string) : answer :=
  match E n with
  | Some v => Val v
  | None => Fault (Unbound n)
  end.

(** Operands are evaluated left to right. *)
Fixpoint eval (L : libm) (g l : env) (e : expr) : answer :=
  match e with
  | EConst c => Val c
  | EGlobal n => lookup g n
  | ELocal n => lookup l n
  | ENeg a => and_then (eval L g l a) (fun va => Val (- va)%float)
  | ESub a b =>
      and_then (eval L g l a) (fun va =>
      and_then (eval L g l b) (fun vb => Val (va - vb)%float))
  | EMul a b =>
      and_then (eval L g l a) (fun va =>
      and_then (eval L g l b) (fun vb => Val (va * vb)%float))
  | EDiv a b =>
      and_then (eval L g l a) (fun va =>
      and_then (eval L g l b) (fun vb =>
        match py_truediv va vb with
        | Ok v => Val v
        | Raise x => Fault (Exn x)
        end))
  | EFloat a => eval L g l a
  | EMax a b =>
      and_then (eval L g l a) (fun va =>
      and_then (eval L g l b) (fun vb => Val (py_max va vb)))
  | EExp a => and_then (eval L g l a) (fun va => Val (np_exp L va))
  | EPower a b =>
      and_then (eval L g l a) (fun va =>
      and_then (eval L g l b) (fun vb => Val (np_power L va vb)))
  end.

(** How a call ends. *)
Inductive outcome : Type :=
| Returned (s : string)
| ReturnedNone
| Failed (f : fault).

(** A statement either falls through to the next one, with the two name
    spaces as it leaves them, or ends the call, leaving the globals. *)
Inductive flow : Type :=
| Next (g l : env)
| Done (o : outcome) (g : env).

Fixpoint exec (L : libm) (s : stmt) (g l : env) : flow :=
  match s with
  | SSkip => Next g l
  | SSeq s1 s2 =>
      match exec L s1 g l with
      | Next g' l' => exec L s2 g' l'
      | Done o g' => Done o g'
      end
  | SAssign n e =>
      match eval L g l e with
      | Val v => Next g (upd l n v)
      | Fault f => Done (Failed f) g
      end
  | SGlobalAssign n e =>
      match eval L g l e with
      | Val v => Next (upd g n v) l
      | Fault f => Done (Failed f) g
      end
  | SIfLe a b body =>
      match eval L g l a with
      | Val va =>
          match eval L g l b with
          | Val vb => if (va <=? vb)%float then exec L body g l else Next g l
          | Fault f => Done (Failed f) g
          end
      | Fault f => Done (Failed f) g
      end
  | SReturnPercent e =>
      match eval L g l e with
      | Val v => Done (Returned (format_2f v ++ "%")%string) g
      | Fault f => Done (Failed f) g
      end
  end.

(** A call of a two-parameter function: fresh locals holding the two
    arguments, the body run against the globals as they are, and the
    outcome together with the globals as the call leaves them. *)
Definition call (L : libm) (p1 p2 : string) (body : stmt)
  (g : env) (a1 a2 : float) : outcome * env :=
  match exec L body g (upd (upd empty_env p1 a1) p2 a2) with
  | Next g' _ => (ReturnedNone, g')
  | Done o g' => (o, g')
  end.

(** Lines 5 to 9. *)
Definition module_top : stmt :=
  block [ SGlobalAssign "Q_INDEX" (EConst 1.8591);
          SGlobalAssign "KAPPA" (EConst 0.2121);
          SGlobalAssign "A_MET" (EConst 1.0789);
          SGlobalAssign "ALPHA_MASS" (EConst 0.9825);
          SGlobalAssign "BETA_MASS" (EConst 2.2413) ].

(** Lines 16 to 40. *)
Definition calculate_body : stmt :=
  block [
    SAssign "M" (EFloat (ELocal "stellar_mass"));
    SAssign "Z" (EFloat (ELocal "metallicity"));
    SAssign "Z_term" (EPower (EConst 10.0) (EMul (EGlobal "A_MET") (ELocal "Z")));
    SAssign "M_term"
      (EMul (EPower (EMax (ELocal "M") (EConst 1e-5)) (EGlobal "ALPHA_MASS"))
            (EExp (EMul (ENeg (EGlobal "BETA_MASS")) (ELocal "M"))));
    SAssign "Phi" (EMul (EMul (EGlobal "KAPPA") (ELocal "Z_term")) (ELocal "M_term"));
    SAssign "base"
      (ESub (EConst 1.0) (EMul (ESub (EConst 1.0) (EGlobal "Q_INDEX")) (ELocal "Phi")));
    SIfLe (ELocal "base") (EConst 0) (SAssign "base" (EConst 0.0));
    SAssign "eq_minus_Phi"
      (EPower (ELocal "base")
              (EDiv (EConst 1.0) (ESub (EConst 1.0) (EGlobal "Q_INDEX"))));
    SAssign "P" (ESub (EConst 1.0) (ELocal "eq_minus_Phi"));
    SAssign "P_percent" (EMul (ELocal "P") (EConst 100));
    SReturnPercent (ELocal "P_percent") ].

(** The globals once the module's top level has run. *)
Definition module_env (L : libm) : env :=
  match exec L module_top empty_env empty_env with
  | Next g _ => g
  | Done _ g => g
  end.

(** [calculate_exoplanet_probability(stellar_mass, metallicity)] called
    with the globals [g]. *)
Definition call_calculate (L : libm) (g : env) (stellar_mass metallicity : float)
  : outcome * env :=
  call L "stellar_mass" "metallicity" calculate_body g stellar_mass metallicity.

(** The globals a piece of text reads, and whether it binds a global. *)
Fixpoint expr_globals (e : expr) : list string :=
  match e with
  | EConst _ | ELocal _ => []
  | EGlobal n => [n]
  | ENeg a | EFloat a | EExp a => expr_globals a
  | ESub a b | EMul a b | EDiv a b | EMax a b | EPower a b =>
      expr_globals a ++ expr_globals b
  end.

Fixpoint stmt_globals (s : stmt) : list string :=
  match s with
  | SSkip => []
  | SSeq s1 s2 => stmt_globals s1 ++ stmt_globals s2
  | SAssign _ e | SGlobalAssign _ e | SReturnPercent e => expr_globals e
  | SIfLe a b body => expr_globals a ++ expr_globals b ++ stmt_globals body
  end.

Fixpoint binds_no_global (s : stmt) : bool :=
  match s with
  | SSkip | SAssign _ _ | SReturnPercent _ => true
  | SGlobalAssign _ _ => false
  | SSeq s1 s2 => binds_no_global s1 && binds_no_global s2
  | SIfLe _ _ body => binds_no_global body
  end.

(** Two name spaces that agree on the names of a list. *)
Definition agree_on (ns : list string) (g g' : env) : Prop :=
  forall n, In n ns -> g n = g' n.

(** The five names of lines 5 to 9. *)
Definition constant_names : list string :=
  [ "Q_INDEX"; "KAPPA"; "A_MET"; "ALPHA_MASS"; "BETA_MASS" ]%string.

(** The globals bind the five names to the fields of [G]. *)
Definition holds (g : env) (G : module_globals) : Prop :=
  g "Q_INDEX"%string = Some (Q_INDEX G) /\
  g "KAPPA"%string = Some (KAPPA G) /\
  g "A_MET"%string = Some (A_MET G) /\
  g "ALPHA_MASS"%string = Some (ALPHA_MASS G) /\
  g "BETA_MASS"%string = Some (BETA_MASS G).

(** The outcome that corresponds to a result of the function above. *)
Definition outcome_of (r : result string) : outcome :=
  match r with
  | Ok s => Returned s
  | Raise x => Failed (Exn x)
  end.

(** Two runs of a statement that binds no global, from globals that agree
    on the names it reads and from the same locals, go the same way; each
    leaves its globals as it found them. *)
Definition same_way (g g' : env) (f f' : flow) : Prop :=
  match f, f' with
  | Next g1 l1, Next g2 l2 => g1 = g /\ g2 = g' /\ l1 = l2
  | Done o1 g1, Done o2 g2 => g1 = g /\ g2 = g' /\ o1 = o2
  | _, _ => False
  end.

(* ================================================================== *)
(** * Part II: binary64 arithmetic *)
(* ================================================================== *)

Local Open Scope Z_scope.

Lemma fexp64_eq e : fexp64 e = Z.max (e - 53) (-1074).
Proof. reflexivity. Qed.

Lemma digits2_pos_bounds (p : positive) :
  2 ^ (Zpos (digits2_pos p) - 1) <= Zpos p < 2 ^ Zpos (digits2_pos p).
Proof.
  induction p as [p IH | p IH | ]; cbn [digits2_pos].
  - rewrite Pos2Z.inj_succ.
    replace (Z.succ (Zpos (digits2_pos p)) - 1) with (Z.succ (Zpos (digits2_pos p) - 1)) by lia.
    rewrite !Z.pow_succ_r by lia. lia.
  - rewrite Pos2Z.inj_succ.
    replace (Z.succ (Zpos (digits2_pos p)) - 1) with (Z.succ (Zpos (digits2_pos p) - 1)) by lia.
    rewrite !Z.pow_succ_r by lia. lia.
  - cbn. lia.
Qed.

Lemma iter_pos_nat {A} (f : A -> A) (p : positive) (x : A) :
  iter_pos f p x = Nat.iter (Pos.to_nat p) f x.
Proof.
  revert x. induction p as [p IH | p IH | ]; intro x; cbn [iter_pos].
  - rewrite !IH. rewrite Pos2Nat.inj_xI.
    replace (S (2 * Pos.to_nat p))%nat with (Pos.to_nat p + (Pos.to_nat p + 1))%nat by lia.
    rewrite !Nat.iter_add. reflexivity.
  - rewrite !IH. rewrite Pos2Nat.inj_xO.
    replace (2 * Pos.to_nat p)%nat with (Pos.to_nat p + Pos.to_nat p)%nat by lia.
    rewrite Nat.iter_add. reflexivity.
  - reflexivity.
Qed.

Lemma shr_1_m (r : shr_record) :
  0 <= shr_m r -> shr_m (shr_1 r) = shr_m r / 2.
Proof.
  destruct r as [m r s]; cbn [shr_m]. intro Hm.
  destruct m as [ | [p | p | ] | p ]; cbn [shr_1 shr_m]; try lia.
  all: try reflexivity.
  - apply Z.div_unique with (r := 1); lia.
  - apply Z.div_unique with (r := 0); lia.
Qed.

Lemma shr_1_even (r : shr_record) :
  0 <= shr_m r -> shr_m r mod 2 = 0 -> shr_r r = false -> shr_s r = false ->
  shr_r (shr_1 r) = false /\ shr_s (shr_1 r) = false.
Proof.
  destruct r as [m r s]; cbn [shr_m shr_r shr_s]. intros Hm Hev -> ->.
  destruct m as [ | [p | p | ] | p ]; cbn; try lia; auto.
  - rewrite Pos2Z.inj_xI in Hev.
    replace (2 * Zpos p + 1) with (1 + Zpos p * 2) in Hev by lia.
    rewrite Z.mod_add in Hev by lia. discriminate.
  - discriminate.
Qed.

Lemma shr_nat_spec (m : Z) (k : nat) :
  0 <= m ->
  shr_m (Nat.iter k shr_1 (rec0 m)) = m / 2 ^ Z.of_nat k /\
  (m mod 2 ^ Z.of_nat k = 0 ->
   shr_r (Nat.iter k shr_1 (rec0 m)) = false /\ shr_s (Nat.iter k shr_1 (rec0 m)) = false).
Proof.
  intro Hm. induction k as [ | k IH ].
  - cbn. rewrite Z.div_1_r. auto.
  - destruct IH as [IHm IHz].
    assert (Hq : 0 <= m / 2 ^ Z.of_nat k) by (apply Z.div_pos; lia).
    rewrite Nat2Z.inj_succ, Z.pow_succ_r by lia.
    change (Nat.iter (S k) shr_1 (rec0 m)) with (shr_1 (Nat.iter k shr_1 (rec0 m))).
    split.
    + rewrite shr_1_m by lia. rewrite IHm.
      rewrite Z.div_div by lia. f_equal. lia.
    + intro Hz.
      assert (Hlow : m mod 2 ^ Z.of_nat k = 0).
      { apply Z.mod_divide in Hz; [ | lia ]. destruct Hz as [c Hc].
        apply Z.mod_divide; [ lia | ]. exists (c * 2). lia. }
      destruct (IHz Hlow) as [Hr Hs].
      apply shr_1_even; auto; try lia.
      rewrite IHm.
      apply Z.mod_divide in Hz; [ | lia ]. destruct Hz as [c Hc].
      rewrite Hc. replace (c * (2 * 2 ^ Z.of_nat k)) with (c * 2 * 2 ^ Z.of_nat k) by lia.
      rewrite Z.div_mul by lia. apply Z.mod_mul. lia.
Qed.

Lemma shr_spec (m e n : Z) :
  0 <= m -> 0 < n ->
  exists r, shr (rec0 m) e n = (r, e + n) /\
            shr_m r = m / 2 ^ n /\
            (m mod 2 ^ n = 0 -> loc_of_shr_record r = loc_Exact).
Proof.
  intros Hm Hn. destruct n as [ | p | p ]; try lia.
  cbn [shr]. rewrite iter_pos_nat.
  destruct (shr_nat_spec m (Pos.to_nat p) Hm) as [H1 H2].
  rewrite positive_nat_Z in H1, H2.
  eexists; split; [ reflexivity | split; [ exact H1 | ] ].
  intro Hz. destruct (H2 Hz) as [Hr Hs].
  destruct (Nat.iter (Pos.to_nat p) shr_1 (rec0 m)) as [m' r' s']; cbn in *.
  subst. reflexivity.
Qed.

Lemma round_nearest_even_cases (q : Z) (l : location) :
  round_nearest_even q l = q \/ (round_nearest_even q l = q + 1 /\ l <> loc_Exact).
Proof.
  destruct l as [ | [ | | ] ]; cbn; auto.
  - destruct (Z.even q); [ auto | right; split; [ reflexivity | discriminate ] ].
  - right; split; [ reflexivity | discriminate ].
Qed.

Lemma binary_round_aux_unfold s mx ex lx :
  binary_round_aux prec emax s mx ex lx =
  bra_finish s
    (shr_fexp prec emax
       (round_nearest_even (shr_m (fst (shr_fexp prec emax mx ex lx)))
          (loc_of_shr_record (fst (shr_fexp prec emax mx ex lx))))
       (snd (shr_fexp prec emax mx ex lx)) loc_Exact).
Proof.
  unfold binary_round_aux, bra_finish.
  destruct (shr_fexp prec emax mx ex lx) as [mrs' e']. cbn [fst snd].
  destruct (shr_fexp prec emax _ e' loc_Exact) as [mrs'' e'']. reflexivity.
Qed.

Lemma shr_nonpos r e n : n <= 0 -> shr r e n = (r, e).
Proof. destruct n; [ reflexivity | lia | reflexivity ]. Qed.

Lemma shr_fexp_exact m e :
  shr_fexp prec emax m e loc_Exact = shr (rec0 m) e (fexp64 (Zdigits2 m + e) - e).
Proof. reflexivity. Qed.

Lemma digits_lt_pow (p : positive) (k : Z) :
  0 <= k -> Zpos p < 2 ^ k -> Zpos (digits2_pos p) <= k.
Proof.
  intros Hk Hp. pose proof (digits2_pos_bounds p) as [Hlo _].
  destruct (Z_le_gt_dec (Zpos (digits2_pos p)) k) as [ | Hgt ]; [ assumption | exfalso ].
  assert (2 ^ k <= 2 ^ (Zpos (digits2_pos p) - 1)) by (apply Z.pow_le_mono_r; lia).
  lia.
Qed.

Lemma digits_ge_pow (p : positive) (k : Z) :
  0 <= k -> 2 ^ k <= Zpos p -> k + 1 <= Zpos (digits2_pos p).
Proof.
  intros Hk Hp. pose proof (digits2_pos_bounds p) as [_ Hhi].
  destruct (Z_le_gt_dec (k + 1) (Zpos (digits2_pos p))) as [ | Hgt ]; [ assumption | exfalso ].
  assert (2 ^ Zpos (digits2_pos p) <= 2 ^ k) by (apply Z.pow_le_mono_r; lia).
  lia.
Qed.

Lemma second_stage s m1 e1 :
  0 <= m1 <= 2 ^ 53 -> -1074 <= e1 ->
  bra_finish s (shr_fexp prec emax m1 e1 loc_Exact) = bra_result s m1 e1.
Proof.
  intros [Hlo Hhi] He. rewrite shr_fexp_exact. unfold bra_result.
  destruct (Z.eqb_spec m1 0) as [-> | Hnz].
  - cbn [Zdigits2]. rewrite shr_nonpos by (rewrite fexp64_eq; lia). reflexivity.
  - destruct (Z.eqb_spec m1 (2 ^ 53)) as [-> | Hne].
    + change (Zdigits2 (2 ^ 53)) with 54.
      replace (fexp64 (54 + e1) - e1) with 1 by (rewrite fexp64_eq; lia).
      cbn. reflexivity.
    + destruct m1 as [ | p | p ]; try lia.
      cbn [Zdigits2].
      assert (Hd : Zpos (digits2_pos p) <= 53) by (apply digits_lt_pow; lia).
      rewrite shr_nonpos by (rewrite fexp64_eq; lia).
      reflexivity.
Qed.

Lemma bra_shape s m e :
  e <= fexp64 (Zpos (digits2_pos m) + e) ->
  exists m1,
    (m1 = Zpos m / 2 ^ (fexp64 (Zpos (digits2_pos m) + e) - e) \/
     (m1 = Zpos m / 2 ^ (fexp64 (Zpos (digits2_pos m) + e) - e) + 1 /\
      Zpos m mod 2 ^ (fexp64 (Zpos (digits2_pos m) + e) - e) <> 0)) /\
    0 <= m1 <= 2 ^ 53 /\
    (-1074 < fexp64 (Zpos (digits2_pos m) + e) -> 2 ^ 52 <= m1) /\
    binary_round_aux prec emax s (Zpos m) e loc_Exact =
    bra_result s m1 (fexp64 (Zpos (digits2_pos m) + e)).
Proof.
  intro Hle. rewrite binary_round_aux_unfold.
  pose proof (digits2_pos_bounds m) as [Hdlo Hdhi].
  set (d := Zpos (digits2_pos m)) in *.
  set (e1 := fexp64 (d + e)) in *.
  assert (He1 : e1 = Z.max (d + e - 53) (-1074)) by (subst e1; apply fexp64_eq).
  rewrite (shr_fexp_exact (Zpos m) e). cbn [Zdigits2]. fold d. fold e1.
  destruct (Z.eq_dec e1 e) as [Heq | Hne].
  - (* no shift *)
    rewrite shr_nonpos by lia. cbn [fst snd rec0 shr_m loc_of_shr_record round_nearest_even].
    exists (Zpos m). rewrite Heq, Z.sub_diag, Z.pow_0_r, Z.div_1_r.
    assert (Hd53 : d <= 53) by lia.
    assert (Hm53 : Zpos m < 2 ^ 53).
    { apply Z.lt_le_trans with (2 ^ d); [ assumption | apply Z.pow_le_mono_r; lia ]. }
    split; [ auto | ]. split; [ lia | ]. split.
    + intro Hn. assert (d = 53) by lia.
      replace 52 with (d - 1) by lia. assumption.
    + apply second_stage; lia.
  - (* right shift by n = e1 - e > 0 *)
    assert (Hn : 0 < e1 - e) by lia.
    destruct (shr_spec (Zpos m) e (e1 - e) ltac:(lia) Hn) as (r & Hr & Hrm & Hrl).
    rewrite Hr. cbn [fst snd]. replace (e + (e1 - e)) with e1 by lia.
    set (n := e1 - e) in *.
    set (q := Zpos m / 2 ^ n) in *.
    assert (Hpn : 0 < 2 ^ n) by (apply Z.pow_pos_nonneg; lia).
    assert (Hq0 : 0 <= q) by (apply Z.div_pos; lia).
    assert (Hqhi : q < 2 ^ 53).
    { apply Z.div_lt_upper_bound; [ lia | ].
      rewrite <- Z.pow_add_r by lia.
      apply Z.lt_le_trans with (2 ^ d); [ assumption | apply Z.pow_le_mono_r; lia ]. }
    assert (Hqlo : -1074 < e1 -> 2 ^ 52 <= q).
    { intro Hnorm. assert (Hnd : n = d - 53) by lia.
      apply Z.div_le_lower_bound; [ lia | ].
      rewrite <- Z.pow_add_r by lia.
      replace (n + 52) with (d - 1) by lia. assumption. }
    exists (round_nearest_even (shr_m r) (loc_of_shr_record r)).
    rewrite Hrm.
    destruct (round_nearest_even_cases q (loc_of_shr_record r)) as [Hc | [Hc Hl]];
      rewrite Hc.
    + split; [ auto | ]. split; [ lia | ]. split; [ assumption | ].
      apply second_stage; lia.
    + split.
      { right. split; [ reflexivity | ]. intro Hz. apply Hl. apply Hrl. exact Hz. }
      split; [ lia | ]. split; [ intro Hh; specialize (Hqlo Hh); lia | ].
      apply second_stage; lia.
Qed.

Lemma canon_bounds m e :
  canon m e -> -1074 <= e /\ Zpos m < 2 ^ 53 /\ (-1074 < e -> 2 ^ 52 <= Zpos m).
Proof.
  unfold canon. rewrite fexp64_eq. intro H.
  pose proof (digits2_pos_bounds m) as [Hlo Hhi].
  set (d := Zpos (digits2_pos m)) in *.
  assert (Hd : d <= 53) by lia.
  split; [ lia | split ].
  - apply Z.lt_le_trans with (2 ^ d); [ assumption | apply Z.pow_le_mono_r; lia ].
  - intro Hn. assert (d = 53) by lia. replace 52 with (d - 1) by lia. assumption.
Qed.

Lemma canon_of_bounds m e :
  -1074 <= e -> Zpos m < 2 ^ 53 -> (-1074 < e -> 2 ^ 52 <= Zpos m) -> canon m e.
Proof.
  intros He Hhi Hlo. unfold canon. rewrite fexp64_eq.
  assert (Hd : Zpos (digits2_pos m) <= 53) by (apply digits_lt_pow; lia).
  destruct (Z.eq_dec e (-1074)) as [-> | Hne]; [ lia | ].
  assert (53 <= Zpos (digits2_pos m)).
  { replace 53 with (52 + 1) by lia. apply digits_ge_pow; [ lia | apply Hlo; lia ]. }
  lia.
Qed.

Lemma valid_binary_finite s m e :
  valid_binary (S754_finite s m e) = true <-> canon m e /\ e <= 971.
Proof.
  cbn [SpecFloat.valid_binary]. unfold bounded, canonical_mantissa.
  rewrite andb_true_iff, Z.eqb_eq, Z.leb_le. reflexivity.
Qed.

Lemma bra_result_valid s m1 e1 :
  0 <= m1 <= 2 ^ 53 -> -1074 <= e1 -> (-1074 < e1 -> 2 ^ 52 <= m1) ->
  valid_binary (bra_result s m1 e1) = true.
Proof.
  intros Hm He Hn. unfold bra_result.
  destruct (Z.eqb_spec m1 0); [ reflexivity | ].
  destruct (Z.eqb_spec m1 (2 ^ 53)).
  - destruct (Z.leb_spec (e1 + 1) 971); [ | reflexivity ].
    apply valid_binary_finite. split; [ | assumption ].
    apply canon_of_bounds; [ lia | reflexivity | intros _; reflexivity ].
  - destruct (Z.leb_spec e1 971); [ | reflexivity ].
    apply valid_binary_finite. split; [ | assumption ].
    apply canon_of_bounds; rewrite ?Z2Pos.id by lia; try lia. 
Qed.

Lemma pow2_split (a b : Z) : 0 <= a -> 0 <= b -> 2 ^ (a + b) = 2 ^ a * 2 ^ b.
Proof. intros. apply Z.pow_add_r; assumption. Qed.

Lemma scale_cancel (a b x y z : Z) :
  0 <= x -> 0 <= y -> 0 <= z ->
  a * 2 ^ (x + z) <= b * 2 ^ (y + z) -> a * 2 ^ x <= b * 2 ^ y.
Proof.
  intros Hx Hy Hz H. rewrite !pow2_split in H by assumption.
  assert (0 < 2 ^ z) by (apply Z.pow_pos_nonneg; lia).
  apply Z.mul_le_mono_pos_r with (p := 2 ^ z); [ assumption | ].
  lia.
Qed.

Lemma pos_le_to_pos (a : positive) (z : Z) :
  Zpos a <= z -> Zpos a <= Zpos (Z.to_pos z).
Proof. intro H. rewrite Z2Pos.id; lia. Qed.

Lemma to_pos_le_pos (z : Z) (b : positive) :
  0 < z -> z <= Zpos b -> Zpos (Z.to_pos z) <= Zpos b.
Proof. intros H0 H. rewrite Z2Pos.id; lia. Qed.

Lemma bra_lower s m e ml el k :
  e <= fexp64 (Zpos (digits2_pos m) + e) ->
  canon ml el -> k <= e -> k <= el ->
  Zpos ml * 2 ^ (el - k) <= Zpos m * 2 ^ (e - k) ->
  round_ge (binary_round_aux prec emax s (Zpos m) e loc_Exact) s ml el.
Proof.
  intros Hpre Hcan Hke Hkl Hval.
  destruct (bra_shape s m e Hpre) as (m1 & Hm1 & Hrange & Hnorm & ->).
  set (e1 := fexp64 (Zpos (digits2_pos m) + e)) in *.
  assert (He1 : -1074 <= e1) by (subst e1; rewrite fexp64_eq; lia).
  destruct (canon_bounds ml el Hcan) as (Hel & Hmlhi & Hmllo).
  set (n := e1 - e) in *.
  assert (Hn : 0 <= n) by lia.
  assert (Hpn : 0 < 2 ^ n) by (apply Z.pow_pos_nonneg; lia).
  set (q := Zpos m / 2 ^ n) in *.
  assert (Hq : q <= m1) by (destruct Hm1 as [-> | [-> _]]; lia).
  unfold round_ge, bra_result.
  destruct (Z_lt_le_dec el e1) as [Hlt | Hge].
  - (* the rounded value lies in a higher binade than L *)
    assert (H52 : 2 ^ 52 <= m1) by (apply Hnorm; lia).
    assert (H52' : 0 < 2 ^ 52) by reflexivity.
    destruct (Z.eqb_spec m1 0); [ lia | ].
    destruct (Z.eqb_spec m1 (2 ^ 53)).
    + destruct (Z.leb_spec (e1 + 1) 971); [ right | left; reflexivity ].
      do 2 eexists; split; [ reflexivity | left; lia ].
    + destruct (Z.leb_spec e1 971); [ right | left; reflexivity ].
      do 2 eexists; split; [ reflexivity | left; lia ].
  - assert (Hml : Zpos ml * 2 ^ (el - e) <= Zpos m).
    { replace (Zpos m) with (Zpos m * 2 ^ 0) by (rewrite Z.pow_0_r; lia).
      apply scale_cancel with (z := e - k); try lia.
      replace (el - e + (e - k)) with (el - k) by lia.
      replace (0 + (e - k)) with (e - k) by lia. assumption. }
    assert (HT : Zpos ml * 2 ^ (el - e1) <= q).
    { apply Z.div_le_lower_bound; [ lia | ].
      replace (el - e) with (n + (el - e1)) in Hml by lia.
      rewrite pow2_split in Hml by lia. lia. }
    destruct (Z.eq_dec el e1) as [Heq | Hne].
    + rewrite Heq, Z.sub_diag, Z.pow_0_r, Z.mul_1_r in HT.
      destruct (Z.eqb_spec m1 0); [ lia | ].
      destruct (Z.eqb_spec m1 (2 ^ 53)).
      * destruct (Z.leb_spec (e1 + 1) 971); [ right | left; reflexivity ].
        do 2 eexists; split; [ reflexivity | left; lia ].
      * destruct (Z.leb_spec e1 971); [ right | left; reflexivity ].
        do 2 eexists; split; [ reflexivity | right; split; [ lia | ] ].
        apply pos_le_to_pos. lia.
    + assert (Hml52 : 2 ^ 52 <= Zpos ml) by (apply Hmllo; lia).
      assert (Hstep : 2 ^ (el - e1) = 2 * 2 ^ (el - e1 - 1)).
      { replace (el - e1) with (1 + (el - e1 - 1)) at 1 by lia.
        rewrite pow2_split by lia. reflexivity. }
      assert (Hp1 : 0 < 2 ^ (el - e1 - 1)) by (apply Z.pow_pos_nonneg; lia).
      assert (H53 : 2 ^ 53 = 2 * 2 ^ 52) by reflexivity.
      assert (Hm1eq : m1 = 2 ^ 53) by nia.
      assert (Hone : 2 ^ (el - e1 - 1) = 1) by nia.
      assert (Hel1 : el = e1 + 1).
      { destruct (Z.eq_dec (el - e1 - 1) 0) as [ | Hnz ]; [ lia | exfalso ].
        assert (2 ^ 1 <= 2 ^ (el - e1 - 1)) by (apply Z.pow_le_mono_r; lia).
        change (2 ^ 1) with 2 in *. lia. }
      destruct (Z.eqb_spec m1 0); [ lia | ].
      destruct (Z.eqb_spec m1 (2 ^ 53)); [ | contradiction ].
      destruct (Z.leb_spec (e1 + 1) 971); [ right | left; reflexivity ].
      do 2 eexists; split; [ reflexivity | right; split; [ lia | ] ].
      apply pos_le_to_pos. nia.
Qed.

Lemma bra_upper s m e mu eu k :
  e <= fexp64 (Zpos (digits2_pos m) + e) ->
  canon mu eu -> eu <= 971 -> k <= e -> k <= eu ->
  Zpos m * 2 ^ (e - k) <= Zpos mu * 2 ^ (eu - k) ->
  round_le (binary_round_aux prec emax s (Zpos m) e loc_Exact) s mu eu.
Proof.
  intros Hpre Hcan Hbnd Hke Hku Hval.
  destruct (bra_shape s m e Hpre) as (m1 & Hm1 & Hrange & Hnorm & ->).
  pose proof (digits2_pos_bounds m) as [Hdlo Hdhi].
  set (d := Zpos (digits2_pos m)) in *.
  set (e1 := fexp64 (d + e)) in *.
  assert (He1 : e1 = Z.max (d + e - 53) (-1074)) by (subst e1; apply fexp64_eq).
  destruct (canon_bounds mu eu Hcan) as (Heu & Hmuhi & Hmulo).
  set (n := e1 - e) in *.
  assert (Hn : 0 <= n) by lia.
  assert (Hpn : 0 < 2 ^ n) by (apply Z.pow_pos_nonneg; lia).
  set (q := Zpos m / 2 ^ n) in *.
  unfold round_le, bra_result.
  destruct (Z_lt_le_dec eu e1) as [Hlt | Hge].
  - (* impossible: the exact value already exceeds U *)
    exfalso.
    assert (Hd : e1 = d + e - 53) by lia.
    assert (Hlow : 2 ^ (e1 + 52 - k) <= Zpos m * 2 ^ (e - k)).
    { replace (e1 + 52 - k) with ((d - 1) + (e - k)) by lia.
      rewrite pow2_split by lia.
      apply Z.mul_le_mono_nonneg_r; [ apply Z.pow_nonneg; lia | assumption ]. }
    assert (Hupp : Zpos mu * 2 ^ (eu - k) < 2 ^ (e1 + 52 - k)).
    { apply Z.lt_le_trans with (2 ^ 53 * 2 ^ (eu - k)).
      - apply Z.mul_lt_mono_pos_r; [ apply Z.pow_pos_nonneg; lia | assumption ].
      - rewrite <- pow2_split by lia. apply Z.pow_le_mono_r; lia. }
    lia.
  - assert (Hm : Zpos m <= Zpos mu * 2 ^ (eu - e)).
    { replace (Zpos m) with (Zpos m * 2 ^ 0) by (rewrite Z.pow_0_r; lia).
      apply scale_cancel with (z := e - k); try lia.
      replace (eu - e + (e - k)) with (eu - k) by lia.
      replace (0 + (e - k)) with (e - k) by lia. assumption. }
    set (T := Zpos mu * 2 ^ (eu - e1)).
    assert (HmT : Zpos m <= 2 ^ n * T).
    { replace (eu - e) with (n + (eu - e1)) in Hm by lia.
      rewrite pow2_split in Hm by lia. subst T. lia. }
    assert (HqT : q <= T) by (apply Z.div_le_upper_bound; [ lia | assumption ]).
    assert (Hm1T : m1 <= T).
    { destruct Hm1 as [-> | [-> Hrem]]; [ assumption | ].
      pose proof (Z.div_mod (Zpos m) (2 ^ n) ltac:(lia)) as Hdm.
      pose proof (Z.mod_pos_bound (Zpos m) (2 ^ n) Hpn) as Hmb.
      fold q in Hdm. nia. }
    assert (Hp0 : 0 < 2 ^ (eu - e1)) by (apply Z.pow_pos_nonneg; lia).
    destruct (Z.eqb_spec m1 0); [ left; reflexivity | right ].
    destruct (Z.eq_dec eu e1) as [Heq | Hne].
    + assert (HTmu : T = Zpos mu).
      { subst T. rewrite Heq, Z.sub_diag, Z.pow_0_r. lia. }
      destruct (Z.eqb_spec m1 (2 ^ 53)); [ lia | ].
      destruct (Z.leb_spec e1 971); [ | lia ].
      do 2 eexists; split; [ reflexivity | right; split; [ lia | ] ].
      apply to_pos_le_pos; lia.
    + destruct (Z.eqb_spec m1 (2 ^ 53)).
      * destruct (Z.leb_spec (e1 + 1) 971); [ | lia ].
        do 2 eexists; split; [ reflexivity | ].
        destruct (Z.eq_dec eu (e1 + 1)) as [Heq1 | Hne1]; [ right | left; lia ].
        split; [ lia | ].
        apply to_pos_le_pos; [ reflexivity | ].
        subst T. replace (eu - e1) with 1 in * by lia.
        change (2 ^ 1) with 2 in *. change (2 ^ 53) with (2 * 2 ^ 52) in *. lia.
      * destruct (Z.leb_spec e1 971); [ | lia ].
        do 2 eexists; split; [ reflexivity | left; lia ].
Qed.

Lemma pos_iter_xO (m d : positive) :
  Zpos (Pos.iter xO m d) = Zpos m * 2 ^ Zpos d.
Proof.
  induction d as [ | d IH ] using Pos.peano_ind.
  - cbn [Pos.iter]. rewrite Pos2Z.inj_xO. change (2 ^ 1) with 2. lia.
  - rewrite Pos.iter_succ, Pos2Z.inj_xO, IH, Pos2Z.inj_succ, Z.pow_succ_r by lia. lia.
Qed.

Lemma digits_unique (p : positive) (k : Z) :
  2 ^ (k - 1) <= Zpos p < 2 ^ k -> 1 <= k -> Zpos (digits2_pos p) = k.
Proof.
  intros [Hlo Hhi] Hk.
  pose proof (digits_lt_pow p k ltac:(lia) Hhi).
  pose proof (digits_ge_pow p (k - 1) ltac:(lia) Hlo). lia.
Qed.

Lemma digits_shift (m mz : positive) (j : Z) :
  0 <= j -> Zpos mz = Zpos m * 2 ^ j ->
  Zpos (digits2_pos mz) = Zpos (digits2_pos m) + j.
Proof.
  intros Hj Hmz. pose proof (digits2_pos_bounds m) as [Hlo Hhi].
  assert (Hpj : 0 < 2 ^ j) by (apply Z.pow_pos_nonneg; lia).
  apply digits_unique; [ | lia ]. rewrite Hmz. split.
  - replace (Zpos (digits2_pos m) + j - 1) with (Zpos (digits2_pos m) - 1 + j) by lia.
    rewrite pow2_split by lia. apply Z.mul_le_mono_nonneg_r; lia.
  - rewrite pow2_split by lia. apply Z.mul_lt_mono_pos_r; lia.
Qed.

Lemma shl_align_spec (m : positive) (e e' : Z) :
  exists mz ez, shl_align m e e' = (mz, ez) /\ ez = Z.min e e' /\
                Zpos mz = Zpos m * 2 ^ (e - ez).
Proof.
  unfold shl_align. destruct (e' - e) as [ | d | d ] eqn:Hd.
  - exists m, e. split; [ reflexivity | split; [ lia | ] ].
    rewrite Z.sub_diag, Z.pow_0_r. lia.
  - exists m, e. split; [ reflexivity | split; [ lia | ] ].
    rewrite Z.sub_diag, Z.pow_0_r. lia.
  - exists (Pos.iter xO m d), e'. split; [ reflexivity | split; [ lia | ] ].
    rewrite pos_iter_xO. f_equal. f_equal. lia.
Qed.

Lemma binary_round_eq s m e :
  exists mz ez,
    binary_round prec emax s m e = binary_round_aux prec emax s (Zpos mz) ez loc_Exact /\
    ez <= fexp64 (Zpos (digits2_pos mz) + ez) /\ ez <= e /\
    Zpos mz = Zpos m * 2 ^ (e - ez).
Proof.
  unfold binary_round. change (fexp prec emax) with fexp64.
  destruct (shl_align_spec m e (fexp64 (Zpos (digits2_pos m) + e)))
    as (mz & ez & -> & Hez & Hmz).
  exists mz, ez. split; [ reflexivity | ].
  assert (Hd : Zpos (digits2_pos mz) = Zpos (digits2_pos m) + (e - ez))
    by (apply digits_shift; [ lia | assumption ]).
  rewrite Hd. replace (Zpos (digits2_pos m) + (e - ez) + ez) with (Zpos (digits2_pos m) + e) by lia.
  split; [ lia | split; [ lia | assumption ] ].
Qed.

Lemma scale_up (a b x y z : Z) :
  0 <= x -> 0 <= y -> 0 <= z ->
  a * 2 ^ x <= b * 2 ^ y -> a * 2 ^ (x + z) <= b * 2 ^ (y + z).
Proof.
  intros Hx Hy Hz H. rewrite !pow2_split by assumption.
  assert (0 < 2 ^ z) by (apply Z.pow_pos_nonneg; lia).
  rewrite !Z.mul_assoc. apply Z.mul_le_mono_nonneg_r; lia.
Qed.

Lemma br_lower s m e ml el k :
  canon ml el -> k <= e -> k <= el ->
  Zpos ml * 2 ^ (el - k) <= Zpos m * 2 ^ (e - k) ->
  round_ge (binary_round prec emax s m e) s ml el.
Proof.
  intros Hcan Hke Hkl Hval.
  destruct (binary_round_eq s m e) as (mz & ez & -> & Hpre & Hez & Hmz).
  apply bra_lower with (k := Z.min k ez); try assumption; try lia.
  rewrite Hmz, <- Z.mul_assoc, <- pow2_split by lia.
  replace (e - ez + (ez - Z.min k ez)) with (e - k + (k - Z.min k ez)) by lia.
  replace (el - Z.min k ez) with (el - k + (k - Z.min k ez)) by lia.
  apply scale_up; try lia.
Qed.

Lemma br_upper s m e mu eu k :
  canon mu eu -> eu <= 971 -> k <= e -> k <= eu ->
  Zpos m * 2 ^ (e - k) <= Zpos mu * 2 ^ (eu - k) ->
  round_le (binary_round prec emax s m e) s mu eu.
Proof.
  intros Hcan Hbnd Hke Hku Hval.
  destruct (binary_round_eq s m e) as (mz & ez & -> & Hpre & Hez & Hmz).
  apply bra_upper with (k := Z.min k ez); try assumption; try lia.
  rewrite Hmz, <- Z.mul_assoc, <- pow2_split by lia.
  replace (e - ez + (ez - Z.min k ez)) with (e - k + (k - Z.min k ez)) by lia.
  replace (eu - Z.min k ez) with (eu - k + (k - Z.min k ez)) by lia.
  apply scale_up; try lia.
Qed.

Lemma bra_valid s m e :
  e <= fexp64 (Zpos (digits2_pos m) + e) ->
  valid_binary (binary_round_aux prec emax s (Zpos m) e loc_Exact) = true.
Proof.
  intro Hpre. destruct (bra_shape s m e Hpre) as (m1 & _ & Hrange & Hnorm & ->).
  apply bra_result_valid; try assumption. rewrite fexp64_eq. lia.
Qed.

Lemma br_valid s m e : valid_binary (binary_round prec emax s m e) = true.
Proof.
  destruct (binary_round_eq s m e) as (mz & ez & -> & Hpre & _).
  apply bra_valid. assumption.
Qed.

Lemma mul_precondition mx ex my ey :
  canon mx ex -> canon my ey ->
  ex + ey <= fexp64 (Zpos (digits2_pos (mx * my)) + (ex + ey)).
Proof.
  unfold canon. rewrite !fexp64_eq. intros Hx Hy.
  pose proof (digits2_pos_bounds mx) as [Hxlo Hxhi].
  pose proof (digits2_pos_bounds my) as [Hylo Hyhi].
  set (dx := Zpos (digits2_pos mx)) in *. set (dy := Zpos (digits2_pos my)) in *.
  assert (Hdx : 1 <= dx) by (subst dx; lia).
  assert (Hdy : 1 <= dy) by (subst dy; lia).
  assert (Hd : dx + dy - 1 <= Zpos (digits2_pos (mx * my))).
  { replace (dx + dy - 1) with (dx - 1 + (dy - 1) + 1) by lia.
    apply digits_ge_pow; [ lia | ].
    rewrite pow2_split by lia. rewrite Pos2Z.inj_mul.
    apply Z.mul_le_mono_nonneg; try assumption; apply Z.pow_nonneg; lia. }
  lia.
Qed.

Lemma lexle_value m1 e1 m2 e2 k :
  canon m1 e1 -> canon m2 e2 -> lexle m1 e1 m2 e2 -> k <= e1 -> k <= e2 ->
  Zpos m1 * 2 ^ (e1 - k) <= Zpos m2 * 2 ^ (e2 - k).
Proof.
  intros H1 H2 Hlex Hk1 Hk2.
  destruct (canon_bounds m1 e1 H1) as (He1 & Hm1hi & _).
  destruct (canon_bounds m2 e2 H2) as (He2 & _ & Hm2lo).
  destruct Hlex as [Hlt | [-> Hle]].
  - assert (Hm2 : 2 ^ 52 <= Zpos m2) by (apply Hm2lo; lia).
    apply Z.le_trans with (2 ^ 53 * 2 ^ (e1 - k)).
    + apply Z.mul_le_mono_nonneg_r; [ apply Z.pow_nonneg; lia | lia ].
    + apply Z.le_trans with (2 ^ 52 * 2 ^ (e2 - k)).
      * rewrite <- !pow2_split by lia. apply Z.pow_le_mono_r; lia.
      * apply Z.mul_le_mono_nonneg_r; [ apply Z.pow_nonneg; lia | lia ].
  - apply Z.mul_le_mono_nonneg_r; [ apply Z.pow_nonneg; lia | lia ].
Qed.

(* ------------------------------------------------------------------ *)
(* binary64 values as seen through Prim2SF *)

Lemma float_view (x : float) :
  match Prim2SF x with
  | S754_finite _ m e => canon m e /\ e <= 971
  | _ => True
  end.
Proof.
  pose proof (Prim2SF_valid x) as H.
  destruct (Prim2SF x); auto. apply valid_binary_finite in H. exact H.
Qed.

Lemma SFleb_pos_pos m1 e1 m2 e2 :
  SFleb (S754_finite false m1 e1) (S754_finite false m2 e2) = true <-> lexle m1 e1 m2 e2.
Proof.
  unfold SFleb, SFcompare, lexle.
  change (Pos.compare_cont Eq m1 m2) with (Zpos m1 ?= Zpos m2).
  destruct (Z.compare_spec e1 e2) as [Heq | Hlt | Hgt].
  - destruct (Z.compare_spec (Zpos m1) (Zpos m2)) as [Hm | Hm | Hm]; split; intro H;
      try discriminate; try reflexivity; try (right; split; [ assumption | lia ]).
    destruct H as [H | [_ H]]; lia.
  - split; [ intros _; left; assumption | reflexivity ].
  - split; [ discriminate | intros [H | [H _]]; lia ].
Qed.

Lemma Prim2SF_one : Prim2SF 1%float = S754_finite false one_m (-52).
Proof. reflexivity. Qed.

Lemma Prim2SF_zero : Prim2SF 0%float = S754_zero false.
Proof. reflexivity. Qed.

Lemma canon_one : canon one_m (-52).
Proof. reflexivity. Qed.

Lemma shl_align_fst (m : positive) (e ez : Z) :
  ez <= e -> Zpos (fst (shl_align m e ez)) = Zpos m * 2 ^ (e - ez).
Proof.
  intro H. destruct (shl_align_spec m e ez) as (mz & ez' & -> & Hez & Hmz).
  cbn [fst]. rewrite Hmz. f_equal. f_equal. lia.
Qed.

Lemma SFsub_finite sx mx ex sy my ey :
  SFsub prec emax (S754_finite sx mx ex) (S754_finite sy my ey) =
  binary_normalize prec emax
    (cond_Zopp sx (Zpos mx * 2 ^ (ex - Z.min ex ey)) -
     cond_Zopp sy (Zpos my * 2 ^ (ey - Z.min ex ey))) (Z.min ex ey) false.
Proof.
  cbn [SFsub]. rewrite !shl_align_fst by lia. reflexivity.
Qed.

Lemma round_ge_leb R ml el :
  round_ge R false ml el -> SFleb (S754_finite false ml el) R = true.
Proof.
  intros [-> | (m' & e' & -> & Hlex)]; [ reflexivity | ].
  apply SFleb_pos_pos. assumption.
Qed.

Lemma round_le_leb R mu eu :
  round_le R false mu eu -> SFleb R (S754_finite false mu eu) = true.
Proof.
  intros [-> | (m' & e' & -> & Hlex)]; [ reflexivity | ].
  apply SFleb_pos_pos. assumption.
Qed.

Lemma round_le_nonneg R mu eu :
  round_le R false mu eu -> SFleb (S754_zero false) R = true.
Proof. intros [-> | (m' & e' & -> & Hlex)]; reflexivity. Qed.

Lemma one_sub_nonpos (t : float) :
  (t <=? 0)%float = true -> (1 <=? 1 - t)%float = true.
Proof.
  rewrite !leb_spec, sub_spec, Prim2SF_one, Prim2SF_zero.
  pose proof (float_view t) as Hv.
  destruct (Prim2SF t) as [ s | s | | s m e ]; intro Ht.
  - reflexivity.
  - destruct s; [ reflexivity | discriminate ].
  - discriminate.
  - destruct s; [ | discriminate ]. destruct Hv as [Hcan Hbnd].
    unfold SF64sub. rewrite SFsub_finite. cbn [cond_Zopp].
    set (ez := Z.min (-52) e).
    assert (Hp1 : 0 < 2 ^ (e - ez)) by (apply Z.pow_pos_nonneg; lia).
    assert (Hp2 : 0 < 2 ^ (-52 - ez)) by (apply Z.pow_pos_nonneg; lia).
    destruct (Zpos one_m * 2 ^ (-52 - ez) - - (Zpos m * 2 ^ (e - ez))) as [ | N | N ] eqn:HN;
      try lia.
    cbn [binary_normalize]. apply round_ge_leb.
    apply br_lower with (k := ez); try lia; [ exact canon_one | ].
    rewrite Z.sub_diag, Z.pow_0_r. lia.
Qed.

Lemma one_sub_unit (x : float) :
  (0 <=? x)%float = true -> (x <=? 1)%float = true ->
  (0 <=? 1 - x)%float = true /\ (1 - x <=? 1)%float = true.
Proof.
  rewrite !leb_spec, sub_spec, Prim2SF_one, Prim2SF_zero.
  pose proof (float_view x) as Hv.
  destruct (Prim2SF x) as [ s | s | | s m e ]; intros H0 H1.
  - split; reflexivity.
  - destruct s; discriminate.
  - discriminate.
  - destruct s; [ discriminate | ]. destruct Hv as [Hcan Hbnd].
    apply SFleb_pos_pos in H1.
    unfold SF64sub. rewrite SFsub_finite. cbn [cond_Zopp].
    set (ez := Z.min (-52) e).
    pose proof (lexle_value m e one_m (-52) ez Hcan canon_one H1 ltac:(lia) ltac:(lia)) as Hval.
    assert (Hp1 : 0 < 2 ^ (e - ez)) by (apply Z.pow_pos_nonneg; lia).
    destruct (Zpos one_m * 2 ^ (-52 - ez) - Zpos m * 2 ^ (e - ez)) as [ | N | N ] eqn:HN;
      try lia.
    + split; reflexivity.
    + cbn [binary_normalize].
      assert (Hr : round_le (binary_round prec emax false N ez) false one_m (-52)).
      { apply br_upper with (k := ez); try lia; [ exact canon_one | ].
        rewrite Z.sub_diag, Z.pow_0_r. lia. }
      split; [ eapply round_le_nonneg; eassumption | apply round_le_leb; assumption ].
Qed.

Lemma Prim2SF_hundred : Prim2SF 100%float = S754_finite false hundred_m (-46).
Proof. reflexivity. Qed.

Lemma canon_hundred : canon hundred_m (-46).
Proof. reflexivity. Qed.

Lemma mul_hundred_unit (x : float) :
  (0 <=? x)%float = true -> (x <=? 1)%float = true ->
  (0 <=? x * 100)%float = true /\ (x * 100 <=? 100)%float = true.
Proof.
  rewrite !leb_spec, mul_spec, Prim2SF_one, Prim2SF_zero, Prim2SF_hundred.
  pose proof (float_view x) as Hv.
  destruct (Prim2SF x) as [ s | s | | s m e ]; intros H0 H1.
  - split; reflexivity.
  - destruct s; discriminate.
  - discriminate.
  - destruct s; [ discriminate | ]. destruct Hv as [Hcan Hbnd].
    apply SFleb_pos_pos in H1.
    assert (He : e <= -52) by (destruct H1 as [ | [ ] ]; lia).
    pose proof (lexle_value m e one_m (-52) e Hcan canon_one H1 ltac:(lia) ltac:(lia)) as Hval.
    rewrite Z.sub_diag in Hval. rewrite Z.pow_0_r in Hval. rewrite Z.mul_1_r in Hval.
    unfold SF64mul. cbn [SFmul xorb].
    assert (Hr : round_le (binary_round_aux prec emax false (Zpos (m * hundred_m)) (e + -46) loc_Exact)
                          false hundred_m (-46)).
    { apply bra_upper with (k := e + -46); try lia.
      - apply mul_precondition; [ assumption | exact canon_hundred ].
      - exact canon_hundred.
      - rewrite Z.sub_diag, Z.pow_0_r, Z.mul_1_r, Pos2Z.inj_mul.
        replace (-46 - (e + -46)) with (- e) by lia.
        assert (Hone : Zpos one_m * 2 ^ (-52 - e) = 2 ^ (- e)).
        { change (Zpos one_m) with (2 ^ 52). rewrite <- pow2_split by lia. f_equal. lia. }
        rewrite Hone in Hval.
        rewrite (Z.mul_comm (Zpos m)). apply Z.mul_le_mono_nonneg_l; lia. }
    split; [ eapply round_le_nonneg; eassumption | apply round_le_leb; assumption ].
Qed.

(** ** Signs and not-a-number *)

Lemma ltb_zero_r (x : float) : (x <? 0)%float = sf_neg (Prim2SF x).
Proof.
  rewrite ltb_spec, Prim2SF_zero.
  destruct (Prim2SF x) as [ [ | ] | [ | ] | | [ | ] m e ]; reflexivity.
Qed.

Lemma ltb_zero_l (x : float) : (0 <? x)%float = sf_pos (Prim2SF x).
Proof.
  rewrite ltb_spec, Prim2SF_zero.
  destruct (Prim2SF x) as [ [ | ] | [ | ] | | [ | ] m e ]; reflexivity.
Qed.

Lemma leb_zero_l (x : float) :
  (0 <=? x)%float = sf_pos (Prim2SF x) || sf_zero (Prim2SF x).
Proof.
  rewrite leb_spec, Prim2SF_zero.
  destruct (Prim2SF x) as [ [ | ] | [ | ] | | [ | ] m e ]; reflexivity.
Qed.

Lemma leb_zero_r (x : float) :
  (x <=? 0)%float = sf_neg (Prim2SF x) || sf_zero (Prim2SF x).
Proof.
  rewrite leb_spec, Prim2SF_zero.
  destruct (Prim2SF x) as [ [ | ] | [ | ] | | [ | ] m e ]; reflexivity.
Qed.

Lemma SFcompare_refl_finite s m e :
  SFcompare (S754_finite s m e) (S754_finite s m e) = Some Eq.
Proof.
  unfold SFcompare.
  change (Pos.compare_cont Eq m m) with (m ?= m)%positive.
  rewrite (Z.compare_refl e), (Pos.compare_refl m). destruct s; reflexivity.
Qed.

Lemma is_nan_shape (x : float) : is_nan x = sf_nan (Prim2SF x).
Proof.
  unfold is_nan. rewrite FloatAxioms.eqb_spec. unfold SFeqb.
  destruct (Prim2SF x) as [ [ | ] | [ | ] | | s m e ]; try reflexivity.
  rewrite SFcompare_refl_finite. reflexivity.
Qed.

Lemma nan_of_shape (x : float) : Prim2SF x = S754_nan -> x = nan.
Proof. intro H. apply Prim2SF_inj. rewrite H. reflexivity. Qed.

Lemma bra_sign_shape s m e :
  e <= fexp64 (Zpos (digits2_pos m) + e) ->
  binary_round_aux prec emax s (Zpos m) e loc_Exact = S754_zero s \/
  binary_round_aux prec emax s (Zpos m) e loc_Exact = S754_infinity s \/
  exists m' e', binary_round_aux prec emax s (Zpos m) e loc_Exact = S754_finite s m' e'.
Proof.
  intro Hpre. destruct (bra_shape s m e Hpre) as (m1 & _ & _ & _ & ->).
  unfold bra_result.
  repeat match goal with |- context [if ?b then _ else _] => destruct b end; eauto.
Qed.

Lemma br_sign_shape s m e :
  binary_round prec emax s m e = S754_zero s \/
  binary_round prec emax s m e = S754_infinity s \/
  exists m' e', binary_round prec emax s m e = S754_finite s m' e'.
Proof.
  destruct (binary_round_eq s m e) as (mz & ez & -> & Hpre & _).
  apply bra_sign_shape. assumption.
Qed.

Lemma SFmul_finite_shape sx mx ex sy my ey :
  canon mx ex -> canon my ey ->
  SFmul prec emax (S754_finite sx mx ex) (S754_finite sy my ey) = S754_zero (xorb sx sy) \/
  SFmul prec emax (S754_finite sx mx ex) (S754_finite sy my ey) = S754_infinity (xorb sx sy) \/
  exists m' e',
    SFmul prec emax (S754_finite sx mx ex) (S754_finite sy my ey) =
    S754_finite (xorb sx sy) m' e'.
Proof.
  intros Hx Hy. cbn [SFmul]. apply bra_sign_shape. apply mul_precondition; assumption.
Qed.

(** The product of two numbers that are not negative is not negative. *)
Lemma mul_not_neg (a b : float) :
  (a <? 0)%float = false -> (b <? 0)%float = false -> (a * b <? 0)%float = false.
Proof.
  rewrite !ltb_zero_r, mul_spec. unfold SF64mul.
  pose proof (float_view a) as Ha. pose proof (float_view b) as Hb.
  destruct (Prim2SF a) as [ sa | sa | | sa ma ea ];
    destruct (Prim2SF b) as [ sb | sb | | sb mb eb ]; intros H1 H2;
    try (destruct sa); try (destruct sb); try discriminate; try reflexivity.
  destruct Ha as [Ha _], Hb as [Hb _].
  destruct (SFmul_finite_shape false ma ea false mb eb Ha Hb)
    as [-> | [-> | (m' & e' & ->)]]; reflexivity.
Qed.

(** A negative finite constant times a non-negative number is at most zero. *)
Lemma mul_neg_nonneg (c x : float) (mc : positive) (ec : Z) :
  Prim2SF c = S754_finite true mc ec ->
  (0 <=? x)%float = true -> (c * x <=? 0)%float = true.
Proof.
  intro Hc. rewrite leb_zero_l, leb_zero_r, mul_spec. unfold SF64mul.
  pose proof (float_view c) as Hvc. rewrite Hc in *. destruct Hvc as [Hcc _].
  pose proof (float_view x) as Hx.
  destruct (Prim2SF x) as [ sx | sx | | sx mx ex ]; intro H;
    try (destruct sx); try discriminate; try reflexivity.
  destruct Hx as [Hx _].
  destruct (SFmul_finite_shape true mc ec false mx ex Hcc Hx)
    as [-> | [-> | (m' & e' & ->)]]; reflexivity.
Qed.

Lemma ge_one_not_le_zero (b : float) :
  (1 <=? b)%float = true -> (b <=? 0)%float = false.
Proof.
  rewrite leb_zero_r, leb_spec, Prim2SF_one.
  destruct (Prim2SF b) as [ [ | ] | [ | ] | | [ | ] m e ]; try discriminate; reflexivity.
Qed.

Lemma nan_not_le (a b : float) : is_nan a = true -> (a <=? b)%float = false.
Proof.
  rewrite is_nan_shape, leb_spec. destruct (Prim2SF a); try discriminate. reflexivity.
Qed.

Lemma sub_nan_r (a b : float) : is_nan b = true -> is_nan (a - b) = true.
Proof.
  rewrite !is_nan_shape, sub_spec. unfold SF64sub.
  destruct (Prim2SF b); try discriminate. destruct (Prim2SF a); reflexivity.
Qed.

Lemma mul_nan_r (a b : float) : is_nan b = true -> is_nan (a * b) = true.
Proof.
  rewrite !is_nan_shape, mul_spec. unfold SF64mul.
  destruct (Prim2SF b); try discriminate. destruct (Prim2SF a); reflexivity.
Qed.

Lemma mul_nan_l (a b : float) : is_nan a = true -> is_nan (a * b) = true.
Proof.
  rewrite !is_nan_shape, mul_spec. unfold SF64mul.
  destruct (Prim2SF a); try discriminate. reflexivity.
Qed.

Lemma not_neg_cases (x : float) :
  (x <? 0)%float = false -> is_nan x = true \/ (0 <=? x)%float = true.
Proof.
  rewrite ltb_zero_r, is_nan_shape, leb_zero_l.
  destruct (Prim2SF x) as [ [ | ] | [ | ] | | [ | ] m e ]; try discriminate; auto.
Qed.

(* ================================================================== *)
(** * Part III: the program *)
(* ================================================================== *)

(** ** The body, step by step *)

Lemma calculate_unfold (L : libm) (G : module_globals) (M Z : float) :
  calculate_exoplanet_probability L G M Z =
  (e <- py_truediv 1.0 (1.0 - Q_INDEX G) ;;
   Ok (format_2f ((1.0 - np_power L (base L G M Z) e) * 100) ++ "%")%string).
Proof. reflexivity. Qed.

Lemma app_calculate_eq (L : libm) (M Z : float) :
  app_calculate L M Z = Ok (format_2f (P_percent L app_globals M Z) ++ "%")%string.
Proof. reflexivity. Qed.

Lemma Prim2SF_floor : Prim2SF 1e-5%float = S754_finite false 5902958103587057 (-69).
Proof. reflexivity. Qed.

Lemma Prim2SF_q_slope :
  Prim2SF (1.0 - Q_INDEX app_globals)%float = S754_finite true 7738084879747986 (-53).
Proof. reflexivity. Qed.

Lemma q_exponent_negative : (q_exponent app_globals <? 0)%float = true.
Proof. reflexivity. Qed.

Lemma is_finite_not_nan (x : float) : is_finite x = true -> is_nan x = false.
Proof.
  unfold is_finite. destruct (is_nan x); [ discriminate | reflexivity ].
Qed.

(** ** The mass floor *)

Lemma py_max_floor_pos (M : float) :
  is_nan M = false -> (0 <? py_max M 1e-5)%float = true.
Proof.
  rewrite is_nan_shape. unfold py_max.
  destruct (M <? 1e-5)%float eqn:E; [ reflexivity | ].
  rewrite ltb_zero_l. rewrite ltb_spec, Prim2SF_floor in E.
  destruct (Prim2SF M) as [ [ | ] | [ | ] | | [ | ] m e ]; intro Hn;
    try discriminate; reflexivity.
Qed.

Lemma SFcompare_eq_finite (a : spec_float) (m : positive) (e : Z) :
  SFcompare a (S754_finite false m e) = Some Eq -> a = S754_finite false m e.
Proof.
  destruct a as [ [ | ] | [ | ] | | [ | ] ma ea ]; cbn [SFcompare]; try discriminate.
  change (Pos.compare_cont Eq ma m) with (Zpos ma ?= Zpos m).
  destruct (Z.compare_spec ea e) as [He | He | He]; try discriminate.
  destruct (Z.compare_spec (Zpos ma) (Zpos m)) as [Hm | Hm | Hm]; try discriminate.
  intros _. f_equal; [ congruence | assumption ].
Qed.

(** Python's [max] and the larger-of-two agree at the floor [1e-5]. *)
Lemma py_max_fmax (M : float) : py_max M 1e-5 = Spec.fmax M 1e-5.
Proof.
  unfold py_max, Spec.fmax.
  destruct (M <? 1e-5)%float eqn:Elt; destruct (M <=? 1e-5)%float eqn:Ele; try reflexivity.
  - rewrite ltb_spec in Elt. rewrite leb_spec in Ele. unfold SFltb, SFleb in *.
    destruct (SFcompare (Prim2SF M) (Prim2SF 1e-5)) as [ [ | | ] | ]; discriminate.
  - rewrite ltb_spec in Elt. rewrite leb_spec in Ele. unfold SFltb, SFleb in *.
    rewrite Prim2SF_floor in *.
    destruct (SFcompare (Prim2SF M) (S754_finite false 5902958103587057 (-69)))
      as [ [ | | ] | ] eqn:Ec; try discriminate.
    apply SFcompare_eq_finite in Ec. symmetry. apply Prim2SF_inj.
    rewrite Ec. reflexivity.
Qed.

(** ** The sign of the stellar potential and the Tsallis base *)

Lemma Phi_not_neg (L : libm) (M Z : float) :
  exp_sign_law L -> pow_sign_law L -> is_nan M = false ->
  (Phi L app_globals M Z <? 0)%float = false.
Proof.
  intros Hexp Hpow HM. unfold Phi, Z_term, M_term.
  apply mul_not_neg; [ apply mul_not_neg | apply mul_not_neg ].
  - reflexivity.
  - apply Hpow. reflexivity.
  - apply Hpow. apply py_max_floor_pos. assumption.
  - apply Hexp.
Qed.

Lemma base_raw_cases (L : libm) (M Z : float) :
  exp_sign_law L -> pow_sign_law L -> is_nan M = false ->
  (is_nan (Phi L app_globals M Z) = true /\ is_nan (base_raw L app_globals M Z) = true) \/
  ((0 <=? Phi L app_globals M Z)%float = true /\
   (1 <=? base_raw L app_globals M Z)%float = true).
Proof.
  intros Hexp Hpow HM.
  destruct (not_neg_cases _ (Phi_not_neg L M Z Hexp Hpow HM)) as [Hnan | Hpos].
  - left. split; [ assumption | ]. unfold base_raw.
    apply sub_nan_r. apply mul_nan_r. assumption.
  - right. split; [ assumption | ]. unfold base_raw.
    apply one_sub_nonpos.
    apply (mul_neg_nonneg _ _ _ _ Prim2SF_q_slope). assumption.
Qed.

Lemma clamp_never_fires (L : libm) (M Z : float) :
  exp_sign_law L -> pow_sign_law L -> is_nan M = false ->
  clamp_fires L app_globals M Z = false.
Proof.
  intros Hexp Hpow HM. unfold clamp_fires.
  destruct (base_raw_cases L M Z Hexp Hpow HM) as [[_ Hnan] | [_ Hge]].
  - apply nan_not_le. assumption.
  - apply ge_one_not_le_zero. assumption.
Qed.

Lemma base_is_raw (L : libm) (M Z : float) :
  exp_sign_law L -> pow_sign_law L -> is_nan M = false ->
  base L app_globals M Z = base_raw L app_globals M Z.
Proof.
  intros Hexp Hpow HM. unfold base.
  rewrite (clamp_never_fires L M Z Hexp Hpow HM). reflexivity.
Qed.

(** When the potential is a number the probability lies in [[0, 1]]. *)
Lemma probability_unit (L : libm) (M Z : float) :
  exp_sign_law L -> pow_sign_law L -> pow_unit_law L ->
  is_nan M = false -> is_nan (Phi L app_globals M Z) = false ->
  ((0 <=? eq_minus_Phi L app_globals M Z)%float = true /\
   (eq_minus_Phi L app_globals M Z <=? 1)%float = true) /\
  ((0 <=? P L app_globals M Z)%float = true /\
   (P L app_globals M Z <=? 1)%float = true).
Proof.
  intros Hexp Hpow Hunit HM HPhi.
  assert (Heq : (0 <=? eq_minus_Phi L app_globals M Z)%float = true /\
                (eq_minus_Phi L app_globals M Z <=? 1)%float = true).
  { unfold eq_minus_Phi. rewrite (base_is_raw L M Z Hexp Hpow HM).
    apply Hunit; [ | exact q_exponent_negative ].
    destruct (base_raw_cases L M Z Hexp Hpow HM) as [[Hnan _] | [_ Hge]];
      [ congruence | assumption ]. }
  split; [ assumption | ].
  unfold P. apply one_sub_unit; apply Heq.
Qed.

(* ================================================================== *)
(** * Part IV: the reference math library obeys the laws *)
(* ================================================================== *)

Lemma fx_one_pos : 0 < fx_one.
Proof. reflexivity. Qed.

Lemma ln2_fx_pos : 0 < ln2_fx.
Proof. reflexivity. Qed.

Lemma exp_series_ge (fuel : nat) (j r : Z) :
  0 <= r -> 0 < j -> fx_one <= exp_series fuel j r.
Proof.
  intro Hr. revert j. induction fuel as [ | f IH ]; intros j Hj; cbn [exp_series].
  - lia.
  - pose proof fx_one_pos. specialize (IH (j + 1) ltac:(lia)).
    assert (0 <= r * exp_series f (j + 1) r / (fx_one * j)).
    { apply Z.div_pos; nia. }
    lia.
Qed.

Lemma exp_taylor_ge (r : Z) : 0 <= r -> fx_one <= exp_taylor r.
Proof. intro Hr. apply exp_series_ge; lia. Qed.

Lemma atanh_series_nonneg (fuel : nat) (j z2 : Z) :
  0 <= z2 -> 0 <= j -> 0 <= atanh_series fuel j z2.
Proof.
  intro Hz. revert j. induction fuel as [ | f IH ]; intros j Hj; cbn [atanh_series];
    pose proof fx_one_pos.
  - apply Z.div_pos; lia.
  - specialize (IH (j + 1) ltac:(lia)).
    assert (0 <= fx_one / (2 * j + 1)) by (apply Z.div_pos; lia).
    assert (0 <= z2 * atanh_series f (j + 1) z2 / fx_one) by (apply Z.div_pos; nia).
    lia.
Qed.

Lemma ln_mantissa_nonneg (w : Z) : fx_one <= w -> 0 <= ln_mantissa w.
Proof.
  intro Hw. unfold ln_mantissa. pose proof fx_one_pos.
  set (z := (w - fx_one) * fx_one / (w + fx_one)).
  assert (Hz : 0 <= z) by (apply Z.div_pos; nia).
  assert (Hz2 : 0 <= z * z / fx_one) by (apply Z.div_pos; nia).
  pose proof (atanh_series_nonneg 45 0 (z * z / fx_one) Hz2 ltac:(lia)).
  assert (0 <= z * atanh_series 45 0 (z * z / fx_one) / fx_one) by (apply Z.div_pos; nia).
  lia.
Qed.

Lemma exp_pos_bounds (u : Z) :
  0 <= u -> fx_one <= fst (exp_pos u) /\ 0 <= snd (exp_pos u).
Proof.
  intro Hu. unfold exp_pos. cbn [fst snd]. pose proof ln2_fx_pos. split.
  - apply exp_taylor_ge. apply Z.mod_pos_bound. assumption.
  - apply Z.div_pos; lia.
Qed.

Lemma binary_normalize_valid (m e : Z) :
  valid_binary (binary_normalize prec emax m e false) = true.
Proof. destruct m; cbn [binary_normalize]; [ reflexivity | apply br_valid | apply br_valid ]. Qed.

Lemma binary_normalize_not_neg (m e : Z) :
  0 <= m ->
  sf_neg (binary_normalize prec emax m e false) = false /\
  sf_nan (binary_normalize prec emax m e false) = false.
Proof.
  intro Hm. destruct m as [ | p | p ]; cbn [binary_normalize]; try lia.
  - split; reflexivity.
  - destruct (br_sign_shape false p e) as [-> | [-> | (m' & e' & ->)]]; split; reflexivity.
Qed.

Lemma exp_fx_shape (u : Z) :
  valid_binary (exp_fx u) = true /\ sf_neg (exp_fx u) = false /\ sf_nan (exp_fx u) = false.
Proof.
  unfold exp_fx. pose proof fx_one_pos.
  destruct (Z.ltb_spec u 0) as [Hneg | Hpos].
  - destruct (exp_pos_bounds (- u) ltac:(lia)) as [Ht Hk].
    destruct (exp_pos (- u)) as [t k]. cbn [fst snd] in *.
    destruct (1100 <? k); [ repeat split; reflexivity | ].
    split; [ apply binary_normalize_valid | ].
    apply binary_normalize_not_neg. apply Z.div_pos; nia.
  - destruct (exp_pos_bounds u Hpos) as [Ht Hk].
    destruct (exp_pos u) as [t k]. cbn [fst snd] in *.
    destruct (1100 <? k); [ repeat split; reflexivity | ].
    split; [ apply binary_normalize_valid | ].
    apply binary_normalize_not_neg. lia.
Qed.

Lemma Prim2SF_exp_fx (u : Z) : Prim2SF (SF2Prim (exp_fx u)) = exp_fx u.
Proof. apply Prim2SF_SF2Prim. apply exp_fx_shape. Qed.

Lemma ref_exp_sign : exp_sign_law ref_libm.
Proof.
  intro x. cbn [np_exp ref_libm]. rewrite ltb_zero_r. unfold ref_exp.
  destruct (Prim2SF x) as [ s | [ | ] | | s m e ]; try reflexivity.
  rewrite Prim2SF_exp_fx. apply exp_fx_shape.
Qed.

Lemma pow_core_not_neg mx ex sy my ey :
  sf_neg (Prim2SF (pow_core mx ex sy my ey)) = false /\
  sf_nan (Prim2SF (pow_core mx ex sy my ey)) = false.
Proof. unfold pow_core. rewrite Prim2SF_exp_fx. apply exp_fx_shape. Qed.

Lemma ref_pow_sign : pow_sign_law ref_libm.
Proof.
  intros x y. cbn [np_power ref_libm]. rewrite ltb_zero_l, ltb_zero_r. unfold ref_power.
  destruct (Prim2SF y) as [ sy | sy | | sy my ey ].
  - reflexivity.
  - destruct (Prim2SF x) as [ sx | [ | ] | | [ | ] mx ex ]; try discriminate; intros _;
      repeat match goal with |- context [if ?b then _ else _] => destruct b end; reflexivity.
  - intros _. destruct (x =? 1)%float; reflexivity.
  - destruct (Prim2SF x) as [ sx | [ | ] | | [ | ] mx ex ]; try discriminate; intros _.
    + destruct sy; reflexivity.
    + apply pow_core_not_neg.
Qed.

Lemma ref_pow_number : pow_number_law ref_libm.
Proof.
  intros x y. cbn [np_power ref_libm]. rewrite ltb_zero_l, !is_nan_shape. unfold ref_power.
  destruct (Prim2SF y) as [ sy | sy | | sy my ey ]; try discriminate.
  - reflexivity.
  - destruct (Prim2SF x) as [ sx | [ | ] | | [ | ] mx ex ]; try discriminate; intros _ _;
      repeat match goal with |- context [if ?b then _ else _] => destruct b end; reflexivity.
  - destruct (Prim2SF x) as [ sx | [ | ] | | [ | ] mx ex ]; try discriminate; intros _ _.
    + destruct sy; reflexivity.
    + apply pow_core_not_neg.
Qed.

Lemma eqb_zero_shape (y : float) : (y =? 0)%float = sf_zero (Prim2SF y).
Proof.
  rewrite FloatAxioms.eqb_spec, Prim2SF_zero. unfold SFeqb.
  destruct (Prim2SF y) as [ [ | ] | [ | ] | | [ | ] m e ]; reflexivity.
Qed.

Lemma ref_pow_nan : pow_nan_law ref_libm.
Proof.
  intros y. cbn [np_power ref_libm]. rewrite eqb_zero_shape, is_nan_shape. unfold ref_power.
  destruct (Prim2SF y) as [ sy | [ | ] | | [ | ] my ey ]; try discriminate; intros _; reflexivity.
Qed.

Lemma SFcompare_swap (a b : spec_float) :
  SFcompare b a = option_map CompOpp (SFcompare a b).
Proof.
  destruct a as [ [ | ] | [ | ] | | [ | ] ma ea ];
    destruct b as [ [ | ] | [ | ] | | [ | ] mb eb ]; try reflexivity;
    cbn [SFcompare option_map];
    change (Pos.compare_cont Eq mb ma) with (Zpos mb ?= Zpos ma);
    change (Pos.compare_cont Eq ma mb) with (Zpos ma ?= Zpos mb);
    rewrite (Z.compare_antisym ea eb), (Z.compare_antisym (Zpos ma) (Zpos mb));
    destruct (ea ?= eb); cbn [CompOpp]; try reflexivity;
    destruct (Zpos ma ?= Zpos mb); reflexivity.
Qed.

Lemma leb_not_ltb (a b : float) : (a <=? b)%float = true -> (b <? a)%float = false.
Proof.
  rewrite leb_spec, ltb_spec. unfold SFleb, SFltb.
  rewrite (SFcompare_swap (Prim2SF a) (Prim2SF b)).
  destruct (SFcompare (Prim2SF a) (Prim2SF b)) as [ [ | | ] | ]; try discriminate; reflexivity.
Qed.

Lemma abs_of_pos (x : float) : sf_pos (Prim2SF x) = true -> abs x = x.
Proof.
  intro H. apply Prim2SF_inj. rewrite abs_spec.
  destruct (Prim2SF x) as [ [ | ] | [ | ] | | [ | ] m e ]; try discriminate; reflexivity.
Qed.

Lemma ge_one_shape (x : float) :
  (1 <=? x)%float = true ->
  Prim2SF x = S754_infinity false \/
  exists m e, Prim2SF x = S754_finite false m e /\ canon m e /\ lexle one_m (-52) m e.
Proof.
  rewrite leb_spec, Prim2SF_one. pose proof (float_view x) as Hv.
  destruct (Prim2SF x) as [ [ | ] | [ | ] | | [ | ] m e ]; try discriminate; intro H.
  - left. reflexivity.
  - right. exists m, e. split; [ reflexivity | split; [ apply Hv | ] ].
    apply SFleb_pos_pos. assumption.
Qed.

Lemma digits_normal (m : positive) (e : Z) :
  canon m e -> -1074 < e -> Zpos (digits2_pos m) = 53.
Proof.
  intros Hc He. destruct (canon_bounds m e Hc) as (_ & Hhi & Hlo).
  apply digits_unique; [ | lia ]. split; [ apply Hlo; assumption | assumption ].
Qed.

Lemma ln_fx_nonneg (m : positive) (e : Z) :
  canon m e -> lexle one_m (-52) m e -> 0 <= ln_fx m e.
Proof.
  intros Hc Hlex. assert (He : -52 <= e) by (destruct Hlex as [ | [ ] ]; lia).
  destruct (canon_bounds m e Hc) as (_ & Hhi & Hlo).
  unfold ln_fx. rewrite (digits_normal m e Hc ltac:(lia)).
  change (fx_bits - (53 - 1)) with 76.
  assert (Hw : fx_one <= Zpos m * 2 ^ 76).
  { change fx_one with (2 ^ 52 * 2 ^ 76).
    apply Z.mul_le_mono_nonneg_r; [ apply Z.pow_nonneg; lia | apply Hlo; lia ]. }
  pose proof (ln_mantissa_nonneg _ Hw). pose proof ln2_fx_pos. nia.
Qed.

Lemma mul_fx_nonpos (m : positive) (e l : Z) : 0 <= l -> mul_fx true m e l <= 0.
Proof.
  intro Hl. unfold mul_fx. cbn [cond_Zopp].
  destruct e as [ | p | p ].
  - rewrite Z.pow_0_r. nia.
  - assert (0 < 2 ^ Zpos p) by (apply Z.pow_pos_nonneg; lia). nia.
  - assert (0 < 2 ^ Zpos p) by (apply Z.pow_pos_nonneg; lia).
    apply Z.div_le_upper_bound; [ assumption | nia ].
Qed.

Lemma one_m_scale (e : Z) : e <= -52 -> Zpos one_m * 2 ^ (-52 - e) = 2 ^ (- e).
Proof.
  intro He. change (Zpos one_m) with (2 ^ 52).
  rewrite <- pow2_split by lia. f_equal. lia.
Qed.

(** [exp] of a non-positive fixed-point number rounds into [[0, 1]]. *)
Lemma exp_fx_nonpos_unit (u : Z) :
  u <= 0 -> round_le (exp_fx u) false one_m (-52).
Proof.
  intro Hu. unfold exp_fx. pose proof fx_one_pos as H1.
  destruct (Z.ltb_spec u 0) as [Hneg | Hpos].
  - destruct (exp_pos_bounds (- u) ltac:(lia)) as [Ht Hk].
    destruct (exp_pos (- u)) as [t k]. cbn [fst snd] in *.
    destruct (1100 <? k); [ left; reflexivity | ].
    assert (Hq : fx_one * fx_one / t <= fx_one)
      by (apply Z.div_le_upper_bound; nia).
    destruct (fx_one * fx_one / t) as [ | p | p ] eqn:Ep; cbn [binary_normalize].
    + left. reflexivity.
    + apply br_upper with (k := - k - fx_bits); unfold fx_bits; try lia.
      * exact canon_one.
      * rewrite Z.sub_diag, Z.pow_0_r, Z.mul_1_r, one_m_scale by lia.
        apply Z.le_trans with (2 ^ 128); [ exact Hq | ].
        apply Z.pow_le_mono_r; lia.
    + assert (0 <= fx_one * fx_one / t) by (apply Z.div_pos; nia). lia.
  - assert (u = 0) by lia. subst u. right.
    exists one_m, (-52). split; [ vm_compute; reflexivity | right; split; lia ].
Qed.

Lemma unit_of_round_le (R : spec_float) :
  valid_binary R = true -> round_le R false one_m (-52) ->
  (0 <=? SF2Prim R)%float = true /\ (SF2Prim R <=? 1)%float = true.
Proof.
  intros Hv Hr. rewrite !leb_spec, Prim2SF_zero, Prim2SF_one, (Prim2SF_SF2Prim R Hv).
  split; [ eapply round_le_nonneg; eassumption | apply round_le_leb; assumption ].
Qed.

Lemma ref_pow_unit : pow_unit_law ref_libm.
Proof.
  intros x y Hx Hy. cbn [np_power ref_libm]. unfold ref_power.
  rewrite ltb_zero_r in Hy.
  assert (Hnlt : (x <? 1)%float = false) by (apply leb_not_ltb; assumption).
  destruct (ge_one_shape x Hx) as [Hxs | (mx & ex & Hxs & Hcx & Hlex)];
    assert (Habs : abs x = x) by (apply abs_of_pos; rewrite Hxs; reflexivity);
    rewrite Hxs;
    destruct (Prim2SF y) as [ sy | [ | ] | | [ | ] my ey ]; try discriminate;
    rewrite ?Habs, ?Hnlt.
  - destruct (x =? 1)%float; split; reflexivity.
  - split; reflexivity.
  - destruct (x =? 1)%float; split; reflexivity.
  - unfold pow_core. apply unit_of_round_le; [ apply exp_fx_shape | ].
    apply exp_fx_nonpos_unit. apply mul_fx_nonpos. apply ln_fx_nonneg; assumption.
Qed.

(* ================================================================== *)
(** * Part V: the body against the two name spaces *)
(* ================================================================== *)

Lemma agree_on_app (a b : list string) (g g' : env) :
  agree_on (a ++ b) g g' -> agree_on a g g' /\ agree_on b g g'.
Proof.
  intro H. split; intros n Hn; apply H; apply in_or_app; [ left | right ]; assumption.
Qed.

Lemma agree_on_refl (ns : list string) (g : env) : agree_on ns g g.
Proof. intros n _. reflexivity. Qed.

(** An expression sees the globals only through the names it mentions. *)
Lemma eval_agree (L : libm) (g g' l : env) (e : expr) :
  agree_on (expr_globals e) g g' -> eval L g l e = eval L g' l e.
Proof.
  induction e as [ c | n | n | a IHa | a IHa b IHb | a IHa b IHb | a IHa b IHb
                 | a IHa | a IHa b IHb | a IHa | a IHa b IHb ];
    cbn [expr_globals eval]; intro H;
    try (apply agree_on_app in H; destruct H as [Ha Hb]; rewrite (IHa Ha), (IHb Hb));
    try (rewrite (IHa H)); try reflexivity.
  unfold lookup. rewrite (H n (or_introl eq_refl)). reflexivity.
Qed.

(** Two runs of a statement that binds no global go the same way. *)
Lemma exec_frame (L : libm) (s : stmt) :
  binds_no_global s = true ->
  forall g g' l, agree_on (stmt_globals s) g g' ->
  same_way g g' (exec L s g l) (exec L s g' l).
Proof.
  induction s as [ | s1 IH1 s2 IH2 | n e | n e | a b body IH | e ];
    cbn [binds_no_global stmt_globals exec]; intros Hb g g' l Hag.
  - cbn. auto.
  - apply andb_prop in Hb. destruct Hb as [Hb1 Hb2].
    apply agree_on_app in Hag. destruct Hag as [Hag1 Hag2].
    specialize (IH1 Hb1 g g' l Hag1). unfold same_way in IH1.
    destruct (exec L s1 g l) as [ g1 l1 | o1 g1 ];
      destruct (exec L s1 g' l) as [ g2 l2 | o2 g2 ]; try contradiction.
    + destruct IH1 as (-> & -> & ->). apply IH2; assumption.
    + cbn. assumption.
  - rewrite <- (eval_agree L g g' l e Hag).
    destruct (eval L g l e); cbn; auto.
  - discriminate.
  - apply agree_on_app in Hag. destruct Hag as [Ha Hag].
    apply agree_on_app in Hag. destruct Hag as [Hb' Hbody].
    rewrite <- (eval_agree L g g' l a Ha), <- (eval_agree L g g' l b Hb').
    destruct (eval L g l a) as [ va | f ]; [ | cbn; auto ].
    destruct (eval L g l b) as [ vb | f ]; [ | cbn; auto ].
    destruct (va <=? vb)%float; [ apply IH; assumption | cbn; auto ].
  - rewrite <- (eval_agree L g g' l e Hag).
    destruct (eval L g l e); cbn; auto.
Qed.

(** A call of a function whose body binds no global leaves the globals as
    they were, and its outcome depends on them only through the names the
    body reads. *)
Lemma call_frame (L : libm) (p1 p2 : string) (body : stmt) (g g' : env) (a1 a2 : float) :
  binds_no_global body = true -> agree_on (stmt_globals body) g g' ->
  snd (call L p1 p2 body g a1 a2) = g /\
  fst (call L p1 p2 body g' a1 a2) = fst (call L p1 p2 body g a1 a2).
Proof.
  intros Hb Hag. unfold call.
  pose proof (exec_frame L body Hb g g' (upd (upd empty_env p1 a1) p2 a2) Hag) as H.
  unfold same_way in H.
  destruct (exec L body g _) as [ g1 l1 | o1 g1 ];
    destruct (exec L body g' _) as [ g2 l2 | o2 g2 ]; try contradiction;
    destruct H as (-> & -> & H); cbn [fst snd]; split; congruence.
Qed.

Lemma calculate_body_binds_no_global : binds_no_global calculate_body = true.
Proof. reflexivity. Qed.

Lemma calculate_body_reads (g g' : env) :
  agree_on constant_names g g' -> agree_on (stmt_globals calculate_body) g g'.
Proof.
  intros H n Hn. apply H. cbn in Hn. unfold constant_names. cbn [In].
  repeat (destruct Hn as [<- | Hn]; [ tauto | ]). contradiction.
Qed.

(** The module's top level binds the five constants of [app_globals]. *)
Lemma module_env_holds (L : libm) : holds (module_env L) app_globals.
Proof. unfold holds. split_conj; reflexivity. Qed.

(** Run against globals that hold the constants [G], the body computes
    what the function [calculate_exoplanet_probability] computes. *)
Lemma call_calculate_eq (L : libm) (G : module_globals) (g : env) (M Z : float) :
  holds g G ->
  call_calculate L g M Z = (outcome_of (calculate_exoplanet_probability L G M Z), g).
Proof.
  intros (Hq & Hk & Ha & Hal & Hbe).
  rewrite calculate_unfold. unfold base, clamp_fires, base_raw, Phi, Z_term, M_term.
  unfold call_calculate, call, calculate_body, block. cbn [fold_right exec].
  repeat (cbn [eval and_then lookup upd String.eqb Ascii.eqb Bool.eqb empty_env];
          unfold lookup;
          first [ rewrite Ha | rewrite Hal | rewrite Hbe | rewrite Hk | rewrite Hq ]).
  cbn [eval and_then lookup upd String.eqb Ascii.eqb Bool.eqb empty_env].
  unfold py_truediv.
  match goal with |- context [if ?c then Next _ _ else _] => destruct c end;
    repeat (cbn [eval and_then lookup upd String.eqb Ascii.eqb Bool.eqb empty_env];
            unfold lookup; try rewrite Hq);
    destruct (1.0 - Q_INDEX G =? 0)%float; reflexivity.
Qed.

(** The outcome does depend on what the five names are bound to: with
    [Q_INDEX] rebound to [1.0] the division of line 31 raises. *)
Lemma outcome_depends_on_constants (L : libm) (M Z : float) :
  fst (call_calculate L (upd (module_env L) "Q_INDEX" 1.0) M Z) =
  Failed (Exn ZeroDivisionError).
Proof.
  rewrite (call_calculate_eq L
             {| Q_INDEX := 1.0; KAPPA := 0.2121; A_MET := 1.0789;
                ALPHA_MASS := 0.9825; BETA_MASS := 2.2413 |}).
  - reflexivity.
  - unfold holds. split_conj; reflexivity.
Qed.


(* ================================================================== *)
(** * Part VI: printing and reading percentages *)
(* ================================================================== *)

Lemma of_uint_acc_val (d : Decimal.uint) (acc : positive) :
  Zpos (Pos.of_uint_acc d acc) = uint_val d (Zpos acc).
Proof.
  revert acc. induction d; intro acc; cbn [Pos.of_uint_acc uint_val];
    try reflexivity; rewrite IHd; f_equal; lia.
Qed.

Lemma of_uint_val (d : Decimal.uint) : Z.of_N (Pos.of_uint d) = uint_val d 0.
Proof.
  induction d; cbn [Pos.of_uint uint_val]; try reflexivity;
    try (rewrite N2Z.inj_pos, of_uint_acc_val; reflexivity).
  rewrite IHd. reflexivity.
Qed.

Lemma to_uint_val (n : N) : uint_val (N.to_uint n) 0 = Z.of_N n.
Proof.
  rewrite <- of_uint_val. change (Pos.of_uint (N.to_uint n)) with (N.of_uint (N.to_uint n)).
  rewrite DecimalN.Unsigned.of_to. reflexivity.
Qed.

Lemma read_digits_uint (d : Decimal.uint) (rest : string) (acc : Z) :
  read_digits (NilEmpty.string_of_uint d ++ rest) acc = read_digits rest (uint_val d acc).
Proof.
  revert acc. induction d; intro acc; cbn [NilEmpty.string_of_uint uint_val append];
    try reflexivity;
    cbn [read_digits]; change (is_digit _) with true; cbn iota; rewrite IHd;
    match goal with
    | |- context [digit_val ?c] =>
        let v := eval vm_compute in (digit_val c) in change (digit_val c) with v
    end; rewrite ?Z.add_0_r; reflexivity.
Qed.

Lemma has_comma_uint (d : Decimal.uint) (rest : string) :
  has_char ","%char (NilEmpty.string_of_uint d ++ rest) = has_char ","%char rest.
Proof.
  induction d; cbn [NilEmpty.string_of_uint append has_char]; try reflexivity;
    rewrite IHd; reflexivity.
Qed.

Lemma has_minus_uint (d : Decimal.uint) (rest : string) :
  has_char "-"%char (NilEmpty.string_of_uint d ++ rest) = has_char "-"%char rest.
Proof.
  induction d; cbn [NilEmpty.string_of_uint append has_char]; try reflexivity;
    rewrite IHd; reflexivity.
Qed.

Lemma digit_char_small (k : Z) :
  0 <= k <= 9 -> is_digit (digit_char k) = true /\ digit_val (digit_char k) = k.
Proof.
  intro Hk.
  assert (H : k = 0 \/ k = 1 \/ k = 2 \/ k = 3 \/ k = 4 \/
              k = 5 \/ k = 6 \/ k = 7 \/ k = 8 \/ k = 9) by lia.
  repeat (destruct H as [-> | H]; [ split; reflexivity | ]). subst k. split; reflexivity.
Qed.

Lemma digit_char_plain (k : Z) :
  0 <= k <= 9 ->
  Ascii.eqb ","%char (digit_char k) = false /\ Ascii.eqb "-"%char (digit_char k) = false.
Proof.
  intro Hk.
  assert (H : k = 0 \/ k = 1 \/ k = 2 \/ k = 3 \/ k = 4 \/
              k = 5 \/ k = 6 \/ k = 7 \/ k = 8 \/ k = 9) by lia.
  repeat (destruct H as [-> | H]; [ split; reflexivity | ]). subst k. split; reflexivity.
Qed.

(** What [dec_string] prints: a digit first, digits only, and its value. *)
Lemma dec_string_read (n : Z) (rest : string) :
  0 <= n -> starts_with_digit rest = false ->
  starts_with_digit (dec_string n ++ rest) = true /\
  read_digits (dec_string n ++ rest) 0 = (n, rest).
Proof.
  intros Hn Hrest. unfold dec_string, NilZero.string_of_uint.
  assert (Hstop : forall acc, read_digits rest acc = (acc, rest)).
  { intro acc. destruct rest as [ | c r ]; [ reflexivity | ].
    cbn in Hrest. cbn [read_digits]. rewrite Hrest. reflexivity. }
  pose proof (to_uint_val (Z.to_N n)) as Hval. rewrite Z2N.id in Hval by assumption.
  destruct (N.to_uint (Z.to_N n)) as [ | d | d | d | d | d | d | d | d | d | d ] eqn:Ed.
  - cbn in Hval. subst n. split; [ reflexivity | ].
    cbn [append read_digits]. change (is_digit "0") with true. cbn iota. apply Hstop.
  - split; [ reflexivity | ]. rewrite read_digits_uint, Hstop, Hval. reflexivity.
  - split; [ reflexivity | ]. rewrite read_digits_uint, Hstop, Hval. reflexivity.
  - split; [ reflexivity | ]. rewrite read_digits_uint, Hstop, Hval. reflexivity.
  - split; [ reflexivity | ]. rewrite read_digits_uint, Hstop, Hval. reflexivity.
  - split; [ reflexivity | ]. rewrite read_digits_uint, Hstop, Hval. reflexivity.
  - split; [ reflexivity | ]. rewrite read_digits_uint, Hstop, Hval. reflexivity.
  - split; [ reflexivity | ]. rewrite read_digits_uint, Hstop, Hval. reflexivity.
  - split; [ reflexivity | ]. rewrite read_digits_uint, Hstop, Hval. reflexivity.
  - split; [ reflexivity | ]. rewrite read_digits_uint, Hstop, Hval. reflexivity.
  - split; [ reflexivity | ]. rewrite read_digits_uint, Hstop, Hval. reflexivity.
Qed.

Lemma dec_string_plain (n : Z) (rest : string) :
  has_char ","%char (dec_string n ++ rest) = has_char ","%char rest /\
  has_char "-"%char (dec_string n ++ rest) = has_char "-"%char rest.
Proof.
  unfold dec_string, NilZero.string_of_uint.
  destruct (N.to_uint (Z.to_N n)) eqn:Ed;
    try (split; [ apply has_comma_uint | apply has_minus_uint ]).
  split; reflexivity.
Qed.

Lemma append_assoc (a b c : string) : ((a ++ b) ++ c = a ++ (b ++ c))%string.
Proof. induction a as [ | x a IH ]; cbn [append]; [ reflexivity | rewrite IH; reflexivity ]. Qed.

(** Reading back what [fixed2] printed gives the hundredths again. *)
Lemma parse_fixed2 (h : Z) :
  0 <= h -> parse_unsigned (fixed2 h ++ "%") = Some h.
Proof.
  intro Hh. unfold fixed2, parse_unsigned. rewrite append_assoc.
  cbn [append].
  assert (Hq : 0 <= h / 100) by (apply Z.div_pos; lia).
  pose proof (Z.mod_pos_bound h 100 ltac:(lia)) as Hm.
  assert (Hd1 : 0 <= h mod 100 / 10 <= 9).
  { split; [ apply Z.div_pos; lia | ]. apply Z.lt_succ_r.
    apply Z.div_lt_upper_bound; lia. }
  pose proof (Z.mod_pos_bound (h mod 100) 10 ltac:(lia)) as Hd2.
  destruct (digit_char_small _ Hd1) as [Hi1 Hv1].
  destruct (digit_char_small (h mod 100 mod 10) ltac:(lia)) as [Hi2 Hv2].
  destruct (dec_string_read (h / 100)
              (String "." (String (digit_char (h mod 100 / 10))
                 (String (digit_char (h mod 100 mod 10)) "%")))
              Hq eq_refl) as [Hs Hr].
  rewrite Hs, Hr, Hi1, Hi2, Hv1, Hv2. cbn [andb]. f_equal.
  pose proof (Z.div_mod h 100 ltac:(lia)). pose proof (Z.div_mod (h mod 100) 10 ltac:(lia)).
  lia.
Qed.

Lemma parse_pct_digit_first (s : string) :
  starts_with_digit s = true -> parse_pct s = parse_unsigned s.
Proof.
  destruct s as [ | c r ]; [ discriminate | ]. cbn [starts_with_digit]. intro Hc.
  unfold parse_pct.
  destruct c as [[|] [|] [|] [|] [|] [|] [|] [|]]; try reflexivity; discriminate.
Qed.

Lemma fixed2_starts_with_digit (h : Z) (rest : string) :
  0 <= h -> starts_with_digit (fixed2 h ++ rest) = true.
Proof.
  intro Hh. unfold fixed2. rewrite append_assoc.
  assert (Hq : 0 <= h / 100) by (apply Z.div_pos; lia).
  apply (dec_string_read (h / 100)); [ assumption | reflexivity ].
Qed.

Lemma parse_pct_fixed2 (h : Z) : 0 <= h -> parse_pct (fixed2 h ++ "%") = Some h.
Proof.
  intro Hh. rewrite parse_pct_digit_first by (apply fixed2_starts_with_digit; assumption).
  apply parse_fixed2. assumption.
Qed.

Lemma parse_pct_neg_fixed2 (h : Z) :
  0 <= h -> parse_pct (String "-" (fixed2 h) ++ "%") = Some (- h).
Proof.
  intro Hh. cbn [append]. unfold parse_pct. rewrite parse_fixed2 by assumption. reflexivity.
Qed.

Lemma fixed2_plain (h : Z) :
  0 <= h ->
  has_char ","%char (fixed2 h ++ "%") = false /\ has_char "-"%char (fixed2 h ++ "%") = false.
Proof.
  intro Hh. unfold fixed2. rewrite append_assoc. cbn [append].
  pose proof (Z.mod_pos_bound h 100 ltac:(lia)) as Hm.
  assert (Hd1 : 0 <= h mod 100 / 10 <= 9).
  { split; [ apply Z.div_pos; lia | ]. apply Z.lt_succ_r.
    apply Z.div_lt_upper_bound; lia. }
  pose proof (Z.mod_pos_bound (h mod 100) 10 ltac:(lia)) as Hd2.
  destruct (digit_char_plain _ Hd1) as [Hc1 Hm1].
  destruct (digit_char_plain (h mod 100 mod 10) ltac:(lia)) as [Hc2 Hm2].
  destruct (dec_string_plain (h / 100)
              (String "." (String (digit_char (h mod 100 / 10))
                 (String (digit_char (h mod 100 mod 10)) "%")))) as [Hc Hmn].
  rewrite Hc, Hmn. cbn [has_char]. rewrite Hc1, Hc2, Hm1, Hm2. split; reflexivity.
Qed.

(** ** Rounding to hundredths *)

Lemma round_half_even_nonneg (n d : Z) : 0 <= n -> 0 < d -> 0 <= round_half_even n d.
Proof.
  intros Hn Hd. unfold round_half_even.
  assert (0 <= n / d) by (apply Z.div_pos; lia).
  destruct (2 * (n mod d) ?= d); [ destruct (Z.even (n / d)) | | ]; lia.
Qed.

Lemma round_half_even_le (n d N : Z) :
  0 < d -> n <= N * d -> round_half_even n d <= N.
Proof.
  intros Hd Hn. unfold round_half_even.
  pose proof (Z.div_mod n d ltac:(lia)) as Hdm.
  pose proof (Z.mod_pos_bound n d Hd) as Hmb.
  assert (Hq : n / d <= N) by (apply Z.div_le_upper_bound; nia).
  destruct (Z.eq_dec (n / d) N) as [Heq | Hne].
  - assert (Hr : n mod d = 0) by nia.
    rewrite Hr. replace (2 * 0 ?= d) with Lt by (symmetry; apply Z.compare_lt_iff; lia).
    assumption.
  - destruct (2 * (n mod d) ?= d); [ destruct (Z.even (n / d)) | | ]; lia.
Qed.

Lemma hundredths_nonneg (m : positive) (e : Z) : 0 <= hundredths m e.
Proof.
  unfold hundredths. destruct e as [ | p | p ].
  - lia.
  - assert (0 < 2 ^ Zpos p) by (apply Z.pow_pos_nonneg; lia). nia.
  - apply round_half_even_nonneg; [ lia | apply Z.pow_pos_nonneg; lia ].
Qed.

Lemma hundred_m_value : Zpos hundred_m = 100 * 2 ^ 46.
Proof. reflexivity. Qed.

Lemma hundredths_le (m : positive) (e : Z) :
  canon m e -> lexle m e hundred_m (-46) -> hundredths m e <= 10000.
Proof.
  intros Hc Hlex. assert (He : e <= -46) by (destruct Hlex as [ | [ ] ]; lia).
  pose proof (lexle_value m e hundred_m (-46) e Hc canon_hundred Hlex ltac:(lia) ltac:(lia))
    as Hval.
  rewrite Z.sub_diag, Z.pow_0_r, Z.mul_1_r, hundred_m_value in Hval.
  unfold hundredths. destruct e as [ | p | p ]; try lia.
  apply round_half_even_le; [ apply Z.pow_pos_nonneg; lia | ].
  replace (-46 - Zneg p) with (Zpos p - 46) in Hval by lia.
  assert (Hs : 2 ^ Zpos p = 2 ^ 46 * 2 ^ (Zpos p - 46)).
  { rewrite <- pow2_split by lia. f_equal. lia. }
  rewrite Hs. nia.
Qed.

(* ================================================================== *)
(** * Part VII: bounds on products, and the slider domain *)
(* ================================================================== *)

Lemma SFltb_pos_pos m1 e1 m2 e2 :
  SFltb (S754_finite false m1 e1) (S754_finite false m2 e2) = true <->
  (e1 < e2 \/ (e1 = e2 /\ Zpos m1 < Zpos m2)).
Proof.
  unfold SFltb, SFcompare.
  change (Pos.compare_cont Eq m1 m2) with (Zpos m1 ?= Zpos m2).
  destruct (Z.compare_spec e1 e2) as [Heq | Hlt | Hgt].
  - destruct (Z.compare_spec (Zpos m1) (Zpos m2)) as [Hm | Hm | Hm]; split; intro H;
      try discriminate; try reflexivity; try (right; split; assumption);
      destruct H as [H | [_ H]]; lia.
  - split; [ intros _; left; assumption | reflexivity ].
  - split; [ discriminate | intros [H | [H _]]; lia ].
Qed.

Lemma SFleb_neg_neg m1 e1 m2 e2 :
  SFleb (S754_finite true m1 e1) (S754_finite true m2 e2) = true <-> lexle m2 e2 m1 e1.
Proof.
  unfold SFleb, SFcompare, lexle.
  change (Pos.compare_cont Eq m1 m2) with (Zpos m1 ?= Zpos m2).
  destruct (Z.compare_spec e1 e2) as [Heq | Hlt | Hgt].
  - destruct (Z.compare_spec (Zpos m1) (Zpos m2)) as [Hm | Hm | Hm]; cbn [CompOpp];
      split; intro H; try discriminate; try reflexivity;
      try (right; split; [ congruence | lia ]);
      destruct H as [H | [_ H]]; lia.
  - split; [ discriminate | intros [H | [H _]]; lia ].
  - split; [ intros _; left; assumption | reflexivity ].
Qed.

Lemma lexle_trans m1 e1 m2 e2 m3 e3 :
  lexle m1 e1 m2 e2 -> lexle m2 e2 m3 e3 -> lexle m1 e1 m3 e3.
Proof. unfold lexle. lia. Qed.

Lemma round_ge_weaken R s ml el ml' el' :
  lexle ml' el' ml el -> round_ge R s ml el -> round_ge R s ml' el'.
Proof.
  intros Hl [-> | (m & e & -> & Hlex)]; [ left; reflexivity | right ].
  exists m, e. split; [ reflexivity | eapply lexle_trans; eassumption ].
Qed.

Lemma round_le_weaken R s mu eu mu' eu' :
  lexle mu eu mu' eu' -> round_le R s mu eu -> round_le R s mu' eu'.
Proof.
  intros Hl [-> | (m & e & -> & Hlex)]; [ left; reflexivity | right ].
  exists m, e. split; [ reflexivity | eapply lexle_trans; eassumption ].
Qed.

(** A product is at most [U] when one factor is at most [b] in magnitude and
    [|a| * b <= U]; values are compared in units of [2^-2200]. *)
Lemma mul_round_le sa ma ea sx mx ex mb eb mu eu :
  canon ma ea -> canon mx ex -> canon mb eb -> canon mu eu -> eu <= 971 ->
  lexle mx ex mb eb ->
  Zpos ma * Zpos mb * 2 ^ (ea + eb + 2200) <= Zpos mu * 2 ^ (eu + 2200) ->
  round_le (SFmul prec emax (S754_finite sa ma ea) (S754_finite sx mx ex))
           (xorb sa sx) mu eu.
Proof.
  intros Ha Hx Hb Hu Hbnd Hlex Hnum. cbn [SFmul].
  destruct (canon_bounds ma ea Ha) as (Hea & _ & _).
  destruct (canon_bounds mx ex Hx) as (Hex & _ & _).
  destruct (canon_bounds mb eb Hb) as (Heb & _ & _).
  destruct (canon_bounds mu eu Hu) as (Heu & _ & _).
  apply bra_upper with (k := -2200); try assumption; try lia.
  - apply mul_precondition; assumption.
  - pose proof (lexle_value mx ex mb eb (-1074) Hx Hb Hlex ltac:(lia) ltac:(lia)) as Hv.
    replace (ea + ex - -2200) with ((ea + 1126) + (ex - -1074)) by lia.
    replace (eu - -2200) with (eu + 2200) by lia.
    replace (ea + eb + 2200) with ((ea + 1126) + (eb - -1074)) in Hnum by lia.
    rewrite (pow2_split (ea + 1126) (eb - -1074)) in Hnum by lia.
    rewrite (pow2_split (ea + 1126) (ex - -1074)) by lia. rewrite Pos2Z.inj_mul.
    assert (0 < 2 ^ (ea + 1126)) by (apply Z.pow_pos_nonneg; lia).
    eapply Z.le_trans; [ | exact Hnum ]. nia.
Qed.

(** The companion lower bound. *)
Lemma mul_round_ge sa ma ea sx mx ex mb eb ml el :
  canon ma ea -> canon mx ex -> canon mb eb -> canon ml el ->
  lexle mb eb mx ex ->
  Zpos ml * 2 ^ (el + 2200) <= Zpos ma * Zpos mb * 2 ^ (ea + eb + 2200) ->
  round_ge (SFmul prec emax (S754_finite sa ma ea) (S754_finite sx mx ex))
           (xorb sa sx) ml el.
Proof.
  intros Ha Hx Hb Hl Hlex Hnum. cbn [SFmul].
  destruct (canon_bounds ma ea Ha) as (Hea & _ & _).
  destruct (canon_bounds mx ex Hx) as (Hex & _ & _).
  destruct (canon_bounds mb eb Hb) as (Heb & _ & _).
  destruct (canon_bounds ml el Hl) as (Hel & _ & _).
  apply bra_lower with (k := -2200); try assumption; try lia.
  - apply mul_precondition; assumption.
  - pose proof (lexle_value mb eb mx ex (-1074) Hb Hx Hlex ltac:(lia) ltac:(lia)) as Hv.
    replace (ea + ex - -2200) with ((ea + 1126) + (ex - -1074)) by lia.
    replace (el - -2200) with (el + 2200) by lia.
    replace (ea + eb + 2200) with ((ea + 1126) + (eb - -1074)) in Hnum by lia.
    rewrite (pow2_split (ea + 1126) (eb - -1074)) in Hnum by lia.
    rewrite (pow2_split (ea + 1126) (ex - -1074)) by lia. rewrite Pos2Z.inj_mul.
    assert (0 < 2 ^ (ea + 1126)) by (apply Z.pow_pos_nonneg; lia).
    eapply Z.le_trans; [ exact Hnum | ]. nia.
Qed.

(** ** The constants of the slider domain *)

Lemma Prim2SF_A_MET :
  Prim2SF (A_MET app_globals) = S754_finite false 4858933637970028 (-52).
Proof. reflexivity. Qed.

Lemma Prim2SF_KAPPA :
  Prim2SF (KAPPA app_globals) = S754_finite false 7641707847722258 (-55).
Proof. reflexivity. Qed.

Lemma Prim2SF_neg_BETA :
  Prim2SF (- BETA_MASS app_globals)%float = S754_finite true 5046958922412746 (-51).
Proof. reflexivity. Qed.

(** The shape of a stellar mass in [[0.1, 2.5]]. *)
Lemma mass_shape (M : float) :
  (0.1 <=? M)%float = true -> (M <=? 2.5)%float = true ->
  exists m e, Prim2SF M = S754_finite false m e /\ canon m e /\
              lexle 7205759403792794 (-56) m e /\ lexle m e 5629499534213120 (-51).
Proof.
  rewrite !leb_spec.
  change (Prim2SF 0.1) with (S754_finite false 7205759403792794 (-56)).
  change (Prim2SF 2.5) with (S754_finite false 5629499534213120 (-51)).
  pose proof (float_view M) as Hv.
  destruct (Prim2SF M) as [ [ | ] | [ | ] | | [ | ] m e ]; try discriminate; intros H1 H2.
  exists m, e. split; [ reflexivity | split; [ apply Hv | ] ].
  split; apply SFleb_pos_pos; assumption.
Qed.

(** The shape of a metallicity in [[-1, 0.5]]: at most one in magnitude. *)
Lemma metallicity_shape (Z : float) :
  (-1 <=? Z)%float = true -> (Z <=? 0.5)%float = true ->
  (exists s, Prim2SF Z = S754_zero s) \/
  (exists s m e, Prim2SF Z = S754_finite s m e /\ canon m e /\ lexle m e one_m (-52)).
Proof.
  rewrite !leb_spec.
  change (Prim2SF (-1)) with (S754_finite true one_m (-52)).
  change (Prim2SF 0.5) with (S754_finite false one_m (-53)).
  pose proof (float_view Z) as Hv.
  destruct (Prim2SF Z) as [ s | [ | ] | | [ | ] m e ]; try discriminate; intros H1 H2.
  - left. exists s. reflexivity.
  - right. exists true, m, e. split; [ reflexivity | split; [ apply Hv | ] ].
    apply SFleb_neg_neg. assumption.
  - right. exists false, m, e. split; [ reflexivity | split; [ apply Hv | ] ].
    apply SFleb_pos_pos in H2. eapply lexle_trans; [ exact H2 | left; lia ].
Qed.

(** [max(M, 1e-5)] is [M] on the slider domain. *)
Lemma py_max_on_domain (M : float) :
  (0.1 <=? M)%float = true -> (M <=? 2.5)%float = true -> py_max M 1e-5 = M.
Proof.
  intros H1 H2. destruct (mass_shape M H1 H2) as (m & e & HM & _ & Hlo & _).
  unfold py_max. rewrite ltb_spec, HM, Prim2SF_floor.
  destruct (SFltb (S754_finite false m e) (S754_finite false 5902958103587057 (-69))) eqn:E;
    [ | reflexivity ].
  apply SFltb_pos_pos in E. unfold lexle in Hlo. lia.
Qed.

Lemma signed_round_le_two (R : spec_float) (s : bool) :
  round_le R s one_m (-51) ->
  SFleb (S754_finite true one_m (-51)) R = true /\
  SFleb R (S754_finite false one_m (-51)) = true.
Proof.
  intros [-> | (m & e & -> & Hlex)]; destruct s; split; try reflexivity.
  - apply SFleb_neg_neg. assumption.
  - apply SFleb_pos_pos. assumption.
Qed.

(** The exponent [A_MET * Z] of ten stays within [[-2, 2]]. *)
Lemma metallicity_exponent_range (Z : float) :
  (-1 <=? Z)%float = true -> (Z <=? 0.5)%float = true ->
  (-2 <=? A_MET app_globals * Z)%float = true /\
  (A_MET app_globals * Z <=? 2)%float = true.
Proof.
  intros H1 H2. rewrite !leb_spec, mul_spec, Prim2SF_A_MET.
  change (Prim2SF (-2)) with (S754_finite true one_m (-51)).
  change (Prim2SF 2) with (S754_finite false one_m (-51)).
  unfold SF64mul.
  destruct (metallicity_shape Z H1 H2) as [[s ->] | (s & m & e & -> & Hc & Hlex)].
  - destruct s; split; reflexivity.
  - apply (signed_round_le_two _ (xorb false s)).
    apply mul_round_le with (mb := one_m) (eb := -52); try assumption; try lia;
      try lia; first [ canon_const | numeric ].
Qed.

Lemma signed_round_le_eight (R : spec_float) :
  round_le R true one_m (-49) ->
  SFleb (S754_finite true one_m (-49)) R = true /\ SFleb R (S754_zero false) = true.
Proof.
  intros [-> | (m & e & -> & Hlex)]; split; try reflexivity.
  apply SFleb_neg_neg. assumption.
Qed.

(** The argument [-BETA_MASS * M] of the exponential stays within [[-8, 0]]. *)
Lemma decay_argument_range (M : float) :
  (0.1 <=? M)%float = true -> (M <=? 2.5)%float = true ->
  (-8 <=? - BETA_MASS app_globals * M)%float = true /\
  (- BETA_MASS app_globals * M <=? 0)%float = true.
Proof.
  intros H1 H2. destruct (mass_shape M H1 H2) as (m & e & HM & Hc & _ & Hhi).
  rewrite !leb_spec, mul_spec, Prim2SF_neg_BETA, HM, Prim2SF_zero.
  change (Prim2SF (-8)) with (S754_finite true one_m (-49)).
  unfold SF64mul. apply signed_round_le_eight.
  apply mul_round_le with (mb := 5629499534213120%positive) (eb := -51);
    try assumption; try lia;
      try lia; first [ canon_const | numeric ].
Qed.

(** [KAPPA * zt] is a positive finite number when [zt] lies in
    [[2^-10, 2^10]]. *)
Lemma kappa_times_bounded (zt : float) :
  (0.0009765625 <=? zt)%float = true -> (zt <=? 1024)%float = true ->
  exists m e, Prim2SF (KAPPA app_globals * zt)%float = S754_finite false m e /\ canon m e.
Proof.
  rewrite !leb_spec.
  change (Prim2SF 0.0009765625) with (S754_finite false one_m (-62)).
  change (Prim2SF 1024) with (S754_finite false one_m (-42)).
  pose proof (float_view zt) as Hv. pose proof (float_view (KAPPA app_globals * zt)%float) as Hvk.
  rewrite mul_spec, Prim2SF_KAPPA in *. unfold SF64mul in *.
  destruct (Prim2SF zt) as [ [ | ] | [ | ] | | [ | ] m e ]; try discriminate; intros H1 H2.
  destruct Hv as [Hc _].
  apply SFleb_pos_pos in H1. apply SFleb_pos_pos in H2.
  assert (Hge : round_ge (SFmul prec emax (S754_finite false 7641707847722258 (-55))
                            (S754_finite false m e)) (xorb false false)
                         7641707847722258 (-65)).
  { apply mul_round_ge with (mb := one_m) (eb := -62); try assumption;
      try lia; first [ canon_const | numeric ]. }
  assert (Hle : round_le (SFmul prec emax (S754_finite false 7641707847722258 (-55))
                            (S754_finite false m e)) (xorb false false)
                         7641707847722258 (-45)).
  { apply mul_round_le with (mb := one_m) (eb := -42); try assumption; try lia;
      try lia; first [ canon_const | numeric ]. }
  destruct Hge as [Hinf | (m1 & e1 & Hfin & _)].
  - destruct Hle as [Hz | (m2 & e2 & Hfin2 & _)]; congruence.
  - exists m1, e1. split; [ exact Hfin | ]. rewrite Hfin in Hvk. apply Hvk.
Qed.

(** ** Products with a positive finite factor *)

(** A value that is a number and not negative. *)
Lemma nonneg_number_shape (x : float) :
  (x <? 0)%float = false -> is_nan x = false ->
  sf_neg (Prim2SF x) = false /\ sf_nan (Prim2SF x) = false.
Proof. rewrite ltb_zero_r, is_nan_shape. auto. Qed.

Lemma mul_finite_pos_l (a b : float) (ma : positive) (ea : Z) :
  Prim2SF a = S754_finite false ma ea ->
  sf_neg (Prim2SF b) = false -> sf_nan (Prim2SF b) = false ->
  (0 <=? a * b)%float = true.
Proof.
  intros Ha Hneg Hnan. rewrite leb_zero_l, mul_spec. unfold SF64mul.
  pose proof (float_view a) as Hva. pose proof (float_view b) as Hvb.
  rewrite Ha in *. destruct Hva as [Hca _].
  destruct (Prim2SF b) as [ [ | ] | [ | ] | | [ | ] mb eb ]; try discriminate; try reflexivity.
  destruct Hvb as [Hcb _].
  destruct (SFmul_finite_shape false ma ea false mb eb Hca Hcb)
    as [-> | [-> | (m' & e' & ->)]]; reflexivity.
Qed.

Lemma mul_finite_pos_r (a b : float) (mb : positive) (eb : Z) :
  sf_neg (Prim2SF a) = false -> sf_nan (Prim2SF a) = false ->
  Prim2SF b = S754_finite false mb eb ->
  sf_neg (Prim2SF (a * b)%float) = false /\ sf_nan (Prim2SF (a * b)%float) = false.
Proof.
  intros Hneg Hnan Hb. rewrite mul_spec. unfold SF64mul.
  pose proof (float_view a) as Hva. pose proof (float_view b) as Hvb.
  rewrite Hb in *. destruct Hvb as [Hcb _].
  destruct (Prim2SF a) as [ [ | ] | [ | ] | | [ | ] ma ea ]; try discriminate;
    try (split; reflexivity).
  destruct Hva as [Hca _].
  destruct (SFmul_finite_shape false ma ea false mb eb Hca Hcb)
    as [-> | [-> | (m' & e' & ->)]]; split; reflexivity.
Qed.

Lemma unit_positive_shape (x : float) :
  (0 <? x)%float = true -> (x <=? 1)%float = true ->
  exists m e, Prim2SF x = S754_finite false m e.
Proof.
  rewrite ltb_zero_l, leb_spec, Prim2SF_one.
  destruct (Prim2SF x) as [ [ | ] | [ | ] | | [ | ] m e ]; try discriminate; intros _ _.
  exists m, e. reflexivity.
Qed.

(** ** From a non-negative potential to the printed percentage *)

Lemma base_at_least_one (L : libm) (M Z : float) :
  (0 <=? Phi L app_globals M Z)%float = true ->
  (1 <=? base_raw L app_globals M Z)%float = true.
Proof.
  intro Hpos. unfold base_raw. apply one_sub_nonpos.
  apply (mul_neg_nonneg _ _ _ _ Prim2SF_q_slope). assumption.
Qed.

Lemma probability_unit_of_Phi (L : libm) (M Z : float) :
  pow_unit_law L -> (0 <=? Phi L app_globals M Z)%float = true ->
  (0 <=? P L app_globals M Z)%float = true /\ (P L app_globals M Z <=? 1)%float = true.
Proof.
  intros Hunit Hpos. pose proof (base_at_least_one L M Z Hpos) as Hge.
  unfold P. apply one_sub_unit; unfold eq_minus_Phi, base, clamp_fires;
    rewrite (ge_one_not_le_zero _ Hge);
    apply Hunit; try assumption; exact q_exponent_negative.
Qed.

(** A float in [[0, 100]] prints as a percentage between 0.00 and 100.00. *)
Lemma format_percent_range (x : float) :
  (0 <=? x)%float = true -> (x <=? 100)%float = true ->
  exists h, parse_pct (format_2f x ++ "%") = Some h /\ 0 <= h <= 10000 /\
            has_char ","%char (format_2f x ++ "%") = false.
Proof.
  rewrite leb_zero_l, leb_spec, Prim2SF_hundred. unfold format_2f.
  pose proof (float_view x) as Hv.
  destruct (Prim2SF x) as [ [ | ] | [ | ] | | [ | ] m e ]; try discriminate; intros _ Hle.
  - exists 0. split; [ reflexivity | split; [ lia | reflexivity ] ].
  - exists 0. split; [ reflexivity | split; [ lia | reflexivity ] ].
  - destruct Hv as [Hc _]. apply SFleb_pos_pos in Hle.
    pose proof (hundredths_nonneg m e) as H0.
    pose proof (hundredths_le m e Hc Hle) as H1.
    exists (hundredths m e). split; [ apply parse_pct_fixed2; assumption | ].
    split; [ lia | apply fixed2_plain; assumption ].
Qed.

Lemma percent_of_probability (L : libm) (M Z : float) :
  pow_unit_law L -> (0 <=? Phi L app_globals M Z)%float = true ->
  exists s h, app_calculate L M Z = Ok s /\ parse_pct s = Some h /\ 0 <= h <= 10000 /\
              has_char ","%char s = false.
Proof.
  intros Hunit Hpos.
  destruct (probability_unit_of_Phi L M Z Hunit Hpos) as [H0 H1].
  destruct (mul_hundred_unit _ H0 H1) as [Hp0 Hp1].
  destruct (format_percent_range (P_percent L app_globals M Z) Hp0 Hp1) as (h & Hparse & Hh & Hc).
  exists (format_2f (P_percent L app_globals M Z) ++ "%")%string, h.
  split; [ apply app_calculate_eq | auto ].
Qed.

(** On the slider domain the stellar potential is a non-negative number. *)
Lemma Phi_on_domain (L : libm) (M Z : float) :
  pow_sign_law L -> pow_number_law L -> pow_ten_law L -> exp_range_law L ->
  (0.1 <=? M)%float = true -> (M <=? 2.5)%float = true ->
  (-1 <=? Z)%float = true -> (Z <=? 0.5)%float = true ->
  (0 <=? Phi L app_globals M Z)%float = true.
Proof.
  intros Hsign Hnum Hten Hexp HM1 HM2 HZ1 HZ2. unfold Phi, Z_term, M_term.
  rewrite (py_max_on_domain M HM1 HM2).
  destruct (metallicity_exponent_range Z HZ1 HZ2) as [Hy1 Hy2].
  destruct (Hten _ Hy1 Hy2) as [Ht1 Ht2].
  destruct (kappa_times_bounded _ Ht1 Ht2) as (mk & ek & Hk & _).
  destruct (decay_argument_range M HM1 HM2) as [Hd1 Hd2].
  destruct (Hexp _ Hd1 Hd2) as [He1 He2].
  destruct (unit_positive_shape _ He1 He2) as (mx & ex & Hex).
  destruct (mass_shape M HM1 HM2) as (m & e & HMs & _).
  assert (HMpos : (0 <? M)%float = true) by (rewrite ltb_zero_l, HMs; reflexivity).
  destruct (nonneg_number_shape _ (Hsign M (ALPHA_MASS app_globals) HMpos)
              (Hnum M (ALPHA_MASS app_globals) HMpos eq_refl)) as [Hpn Hpm].
  destruct (mul_finite_pos_r _ _ mx ex Hpn Hpm Hex) as [Hmn Hmm].
  apply (mul_finite_pos_l _ _ mk ek Hk Hmn Hmm).
Qed.

(* ================================================================== *)
(** * Part VIII: the reference library on bounded arguments *)
(* ================================================================== *)

Lemma ln2_fx_le_one : ln2_fx <= fx_one.
Proof. vm_compute. discriminate. Qed.

Lemma exp_series_le2 (fuel : nat) (j r : Z) :
  0 <= r <= fx_one -> 2 <= j -> exp_series fuel j r <= 2 * fx_one.
Proof.
  intro Hr. revert j. pose proof fx_one_pos as H1.
  induction fuel as [ | f IH ]; intros j Hj; cbn [exp_series].
  - lia.
  - specialize (IH (j + 1) ltac:(lia)).
    pose proof (exp_series_ge f (j + 1) r ltac:(lia) ltac:(lia)) as Hge.
    assert (r * exp_series f (j + 1) r / (fx_one * j) <= fx_one).
    { apply Z.div_le_upper_bound; [ nia | ].
      apply Z.le_trans with (fx_one * (2 * fx_one)); [ | nia ].
      apply Z.mul_le_mono_nonneg; lia. }
    lia.
Qed.

Lemma exp_taylor_le (r : Z) : 0 <= r <= fx_one -> exp_taylor r <= 3 * fx_one.
Proof.
  intro Hr. unfold exp_taylor. pose proof fx_one_pos as H1.
  change (exp_series 40 1 r) with (fx_one + r * exp_series 39 (1 + 1) r / (fx_one * 1)).
  pose proof (exp_series_le2 39 (1 + 1) r Hr ltac:(lia)) as H2.
  pose proof (exp_series_ge 39 (1 + 1) r ltac:(lia) ltac:(lia)) as Hge.
  assert (r * exp_series 39 (1 + 1) r / (fx_one * 1) <= 2 * fx_one).
  { apply Z.div_le_upper_bound; [ lia | ].
    apply Z.le_trans with (fx_one * (2 * fx_one)); [ | nia ].
    apply Z.mul_le_mono_nonneg; lia. }
  lia.
Qed.

Lemma exp_pos_range (u : Z) :
  0 <= u ->
  fx_one <= fst (exp_pos u) <= 3 * fx_one /\ snd (exp_pos u) = u / ln2_fx.
Proof.
  intro Hu. unfold exp_pos. cbn [fst snd].
  pose proof ln2_fx_pos. pose proof ln2_fx_le_one.
  pose proof (Z.mod_pos_bound u ln2_fx ltac:(lia)) as Hm.
  split; [ split | reflexivity ].
  - apply exp_taylor_ge. lia.
  - apply exp_taylor_le. lia.
Qed.

Lemma pow2_one_m (e : Z) : -52 <= e -> Zpos one_m * 2 ^ (e + 52 - 52) = 2 ^ 52 * 2 ^ e.
Proof. intro He. replace (e + 52 - 52) with e by lia. reflexivity. Qed.

(** [exp u] for [0 <= u] with [u / ln 2 <= kmax]: between [1] and
    [2^(kmax+2)]. *)
Lemma exp_fx_nonneg_range (u kmax : Z) :
  0 <= u -> u / ln2_fx <= kmax -> kmax <= 900 ->
  round_ge (exp_fx u) false one_m (-52) /\
  round_le (exp_fx u) false one_m (kmax - 50).
Proof.
  intros Hu Hk Hkmax. unfold exp_fx.
  destruct (Z.ltb_spec u 0) as [ | _ ]; [ lia | ].
  destruct (exp_pos_range u Hu) as [[Ht1 Ht2] Hks].
  assert (Hk0 : 0 <= u / ln2_fx) by (apply Z.div_pos; [ lia | exact ln2_fx_pos ]).
  destruct (exp_pos u) as [t k]. cbn [fst snd] in *. subst k.
  destruct (Z.ltb_spec 1100 (u / ln2_fx)) as [ | _ ]; [ lia | ].
  pose proof fx_one_pos as H1.
  destruct t as [ | p | p ]; try lia. cbn [binary_normalize].
  set (k := u / ln2_fx) in *.
  assert (Hp : 0 < 2 ^ k) by (apply Z.pow_pos_nonneg; lia).
  split.
  - unfold fx_bits; apply br_lower with (k := -128); try lia; [ exact canon_one | ].
    replace (k - 128 - -128) with k by lia.
    change (Zpos one_m * 2 ^ (-52 - -128)) with fx_one.
    apply Z.le_trans with (Zpos p * 1); [ lia | apply Z.mul_le_mono_nonneg_l; lia ].
  - unfold fx_bits; apply br_upper with (k := -128); try lia.
    + apply canon_of_bounds; [ lia | reflexivity | intros _; reflexivity ].
    + replace (k - 128 - -128) with k by lia.
      replace (kmax - 50 - -128) with (k + (kmax - k + 78)) by lia.
      rewrite pow2_split by lia.
      assert (Hbig : 4 * fx_one <= Zpos one_m * 2 ^ (kmax - k + 78)).
      { change (4 * fx_one) with (Zpos one_m * 2 ^ 78).
        apply Z.mul_le_mono_nonneg_l; [ lia | apply Z.pow_le_mono_r; lia ]. }
      rewrite (Z.mul_comm (2 ^ k)), Z.mul_assoc.
      apply Z.mul_le_mono_nonneg_r; lia.
Qed.

(** [exp u] for [u < 0] with [-u / ln 2 <= kmax]: between [2^(-kmax-2)] and
    [1]. *)
Lemma exp_fx_neg_range (u kmax : Z) :
  u < 0 -> (- u) / ln2_fx <= kmax -> kmax <= 900 ->
  round_ge (exp_fx u) false one_m (- kmax - 54) /\
  round_le (exp_fx u) false one_m (-52).
Proof.
  intros Hu Hk Hkmax. split; [ | apply exp_fx_nonpos_unit; lia ].
  unfold exp_fx.
  destruct (Z.ltb_spec u 0) as [ _ | ]; [ | lia ].
  destruct (exp_pos_range (- u) ltac:(lia)) as [[Ht1 Ht2] Hks].
  assert (Hk0 : 0 <= - u / ln2_fx) by (apply Z.div_pos; [ lia | exact ln2_fx_pos ]).
  destruct (exp_pos (- u)) as [t k]. cbn [fst snd] in *. subst k.
  destruct (Z.ltb_spec 1100 (- u / ln2_fx)) as [ | _ ]; [ lia | ].
  pose proof fx_one_pos as H1.
  set (k := - u / ln2_fx) in *.
  assert (Hq : 2 ^ 126 <= fx_one * fx_one / t).
  { apply Z.div_le_lower_bound; [ lia | ].
    apply Z.le_trans with (3 * fx_one * 2 ^ 126); [ nia | ].
    vm_compute. discriminate. }
  destruct (fx_one * fx_one / t) as [ | p | p ] eqn:Ep; try lia.
  cbn [binary_normalize].
  unfold fx_bits. apply br_lower with (k := - kmax - 1000); try lia.
  - apply canon_of_bounds; [ lia | reflexivity | intros _; reflexivity ].
  - replace (- kmax - 54 - (- kmax - 1000)) with 946 by lia.
    replace (- k - 128 - (- kmax - 1000)) with (872 + (kmax - k)) by lia.
    apply Z.le_trans with (2 ^ 126 * 2 ^ (872 + (kmax - k)));
      [ | apply Z.mul_le_mono_nonneg_r; [ apply Z.pow_nonneg; lia | exact Hq ] ].
    change (Zpos one_m) with (2 ^ 52). rewrite <- !pow2_split by lia.
    apply Z.pow_le_mono_r; lia.
Qed.

(** The fixed-point image of a negative float of magnitude at most [2^B]. *)
Lemma to_fx_neg_bound (m : positive) (e B : Z) :
  canon m e -> lexle m e one_m (B - 52) -> -128 <= B ->
  - 2 ^ (B + 128) <= to_fx true m e < 0.
Proof.
  intros Hc Hlex HB. assert (He : e <= B - 52) by (destruct Hlex as [ | [ ] ]; lia).
  assert (Hcb : canon one_m (B - 52)).
  { apply canon_of_bounds; [ | reflexivity | intros _; reflexivity ].
    destruct (canon_bounds m e Hc); lia. }
  pose proof (lexle_value m e one_m (B - 52) e Hc Hcb Hlex ltac:(lia) ltac:(lia)) as Hv.
  rewrite Z.sub_diag, Z.pow_0_r, Z.mul_1_r in Hv.
  change (Zpos one_m) with (2 ^ 52) in Hv. rewrite <- pow2_split in Hv by lia.
  replace (52 + (B - 52 - e)) with (B - e) in Hv by lia.
  unfold to_fx, fx_bits. cbn [cond_Zopp].
  destruct (e + 128) as [ | sh | k ] eqn:Esh.
  - rewrite Z.pow_0_r. replace (B + 128) with (B - e) by lia. lia.
  - assert (Hp : 0 < 2 ^ Zpos sh) by (apply Z.pow_pos_nonneg; lia).
    replace (B + 128) with ((B - e) + Zpos sh) by lia.
    rewrite pow2_split by lia. nia.
  - assert (Hp : 0 < 2 ^ Zpos k) by (apply Z.pow_pos_nonneg; lia).
    split.
    + apply Z.div_le_lower_bound; [ assumption | ].
      replace (B - e) with (Zpos k + (B + 128)) in Hv by lia.
      rewrite pow2_split in Hv by lia. nia.
    + apply Z.div_lt_upper_bound; [ assumption | lia ].
Qed.

Lemma positive_of_round_ge (R : spec_float) (ml : positive) (el : Z) :
  valid_binary R = true -> round_ge R false ml el -> (0 <? SF2Prim R)%float = true.
Proof.
  intros Hv Hr. rewrite ltb_zero_l, (Prim2SF_SF2Prim R Hv).
  destruct Hr as [-> | (m & e & -> & _)]; reflexivity.
Qed.

Lemma ref_exp_range : exp_range_law ref_libm.
Proof.
  intros x. cbn [np_exp ref_libm]. rewrite !leb_spec, Prim2SF_zero.
  change (Prim2SF (-8)) with (S754_finite true one_m (-49)).
  unfold ref_exp. pose proof (float_view x) as Hv.
  destruct (Prim2SF x) as [ s | [ | ] | | [ | ] m e ]; try discriminate; intros H1 H2.
  - split; reflexivity.
  - destruct Hv as [Hc _]. apply SFleb_neg_neg in H1.
    destruct (to_fx_neg_bound m e 3 Hc H1 ltac:(lia)) as [Hlo Hneg].
    assert (Hk : - to_fx true m e / ln2_fx <= 11).
    { apply Z.le_trans with (2 ^ (3 + 128) / ln2_fx);
        [ apply Z.div_le_mono; [ exact ln2_fx_pos | lia ] | vm_compute; discriminate ]. }
    destruct (exp_fx_neg_range _ 11 Hneg Hk ltac:(lia)) as [Hge Hle].
    split.
    + eapply positive_of_round_ge; [ apply exp_fx_shape | exact Hge ].
    + rewrite Prim2SF_exp_fx, Prim2SF_one. apply round_le_leb. exact Hle.
Qed.

Lemma two_magnitude_shape (y : float) :
  (-2 <=? y)%float = true -> (y <=? 2)%float = true ->
  (exists s, Prim2SF y = S754_zero s) \/
  (exists s m e, Prim2SF y = S754_finite s m e /\ canon m e /\ lexle m e one_m (-51)).
Proof.
  rewrite !leb_spec.
  change (Prim2SF (-2)) with (S754_finite true one_m (-51)).
  change (Prim2SF 2) with (S754_finite false one_m (-51)).
  pose proof (float_view y) as Hv.
  destruct (Prim2SF y) as [ s | [ | ] | | [ | ] m e ]; try discriminate; intros H1 H2.
  - left. exists s. reflexivity.
  - right. exists true, m, e. split; [ reflexivity | split; [ apply Hv | ] ].
    apply SFleb_neg_neg. assumption.
  - right. exists false, m, e. split; [ reflexivity | split; [ apply Hv | ] ].
    apply SFleb_pos_pos. assumption.
Qed.

(** [y * l] in fixed point, for [|y| <= 2] and a positive [l]. *)
Lemma mul_fx_two_bound (s : bool) (m : positive) (e l : Z) :
  canon m e -> lexle m e one_m (-51) -> 0 < l ->
  (s = false -> 0 <= mul_fx s m e l <= 2 * l) /\
  (s = true -> - (2 * l) <= mul_fx s m e l < 0).
Proof.
  intros Hc Hlex Hl. assert (He : e <= -51) by (destruct Hlex as [ | [ ] ]; lia).
  pose proof (lexle_value m e one_m (-51) e Hc ltac:(canon_const) Hlex ltac:(lia) ltac:(lia))
    as Hv.
  rewrite Z.sub_diag, Z.pow_0_r, Z.mul_1_r in Hv.
  change (Zpos one_m) with (2 ^ 52) in Hv. rewrite <- pow2_split in Hv by lia.
  unfold mul_fx. destruct e as [ | p | k ]; try lia.
  replace (52 + (-51 - Zneg k)) with (1 + Zpos k) in Hv by lia.
  rewrite pow2_split in Hv by lia. change (2 ^ 1) with 2 in Hv.
  assert (Hp : 0 < 2 ^ Zpos k) by (apply Z.pow_pos_nonneg; lia).
  split; intros ->; cbn [cond_Zopp]; split.
  - apply Z.div_pos; nia.
  - apply Z.div_le_upper_bound; [ assumption | nia ].
  - apply Z.div_le_lower_bound; [ assumption | nia ].
  - apply Z.div_lt_upper_bound; [ assumption | nia ].
Qed.

Lemma ref_pow_ten : pow_ten_law ref_libm.
Proof.
  intros y H1 H2. cbn [np_power ref_libm]. rewrite !leb_spec.
  change (Prim2SF 0.0009765625) with (S754_finite false one_m (-62)).
  change (Prim2SF 1024) with (S754_finite false one_m (-42)).
  unfold ref_power.
  destruct (two_magnitude_shape y H1 H2) as [[s ->] | (s & m & e & -> & Hc & Hlex)].
  - split; reflexivity.
  - change (Prim2SF 10) with (S754_finite false 5629499534213120 (-49)).
    cbv iota. unfold pow_core. rewrite Prim2SF_exp_fx.
    set (l := ln_fx 5629499534213120 (-49)).
    assert (Hl : 0 < l /\ 2 * l / ln2_fx <= 6)
      by (subst l; vm_compute; split; [ reflexivity | discriminate ]).
    destruct Hl as [Hl0 Hl6].
    destruct (mul_fx_two_bound s m e l Hc Hlex Hl0) as [Hpos Hneg].
    destruct s.
    + destruct (Hneg eq_refl) as [Hlo Hlt].
      assert (Hk : - mul_fx true m e l / ln2_fx <= 6).
      { eapply Z.le_trans; [ | exact Hl6 ].
        apply Z.div_le_mono; [ exact ln2_fx_pos | lia ]. }
      destruct (exp_fx_neg_range _ 6 Hlt Hk ltac:(lia)) as [Hge Hle].
      split.
      * apply round_ge_leb. eapply round_ge_weaken; [ | exact Hge ]. left. lia.
      * apply round_le_leb. eapply round_le_weaken; [ | exact Hle ]. left. lia.
    + destruct (Hpos eq_refl) as [Hlo Hhi].
      assert (Hk : mul_fx false m e l / ln2_fx <= 6).
      { eapply Z.le_trans; [ | exact Hl6 ].
        apply Z.div_le_mono; [ exact ln2_fx_pos | lia ]. }
      destruct (exp_fx_nonneg_range _ 6 Hlo Hk ltac:(lia)) as [Hge Hle].
      split.
      * apply round_ge_leb. eapply round_ge_weaken; [ | exact Hge ]. left. lia.
      * apply round_le_leb. eapply round_le_weaken; [ | exact Hle ]. left. lia.
Qed.

(* ================================================================== *)
(** * Part IX: the claims *)
(* ================================================================== *)

(** C1: with the module's constants, [calculate_exoplanet_probability]
    returns, for every pair of floats and every math library, the string of
    the specification's nine-step algorithm: floor the mass at [1e-5], form
    [10^(aMet*Z)], the mass term, [phi], the Tsallis base, the clamp, the
    power [1/(1-qIndex)], [P = 1 - eqMinusPhi], and [P*100] printed with two
    decimals and a percent sign.  The call never raises. *)
Theorem C1_nine_step_refinement (L : libm) (M Z : float) :
  app_calculate L M Z = Ok (Spec.compute L M Z).
Proof.
  rewrite app_calculate_eq.
  unfold Spec.compute, Spec.probability, Spec.eqMinusPhi, Spec.clampedBase,
    Spec.tsallisBase, Spec.phi, Spec.zTerm, Spec.mTerm, Spec.mEff.
  unfold P_percent, P, eq_minus_Phi, base, clamp_fires, base_raw, Phi, Z_term, M_term,
    q_exponent.
  rewrite py_max_fmax. reflexivity.
Qed.

(** C2 (as the code behaves): for every finite pair [(M, Z)] the base
    [1 - (1 - Q_INDEX) * Phi] is never at most zero, so the clamp of lines
    28-29 never fires and [base] reaches the power step unchanged.  It holds
    for every math library whose [exp] and positive-base [pow] return no
    negative number. *)
Theorem C2_clamp_never_fires (L : libm) (M Z : float) :
  exp_sign_law L -> pow_sign_law L ->
  is_finite M = true -> is_finite Z = true ->
  clamp_fires L app_globals M Z = false /\
  base L app_globals M Z = base_raw L app_globals M Z.
Proof.
  intros Hexp Hpow HM _. apply is_finite_not_nan in HM. split.
  - apply clamp_never_fires; assumption.
  - apply base_is_raw; assumption.
Qed.

Lemma C2_witness :
  clamp_fires ref_libm app_globals 1.0 5.0 = false /\
  base ref_libm app_globals 1.0 5.0 = base_raw ref_libm app_globals 1.0 5.0.
Proof.
  apply (C2_clamp_never_fires ref_libm 1.0 5.0 ref_exp_sign ref_pow_sign); reflexivity.
Defined.

(** C2, refuted as stated: with the reference library no finite input makes
    the clamp fire; at the suggested [M = 1.0], [Z = 5.0] the base is about
    [4806]. *)
Lemma C2_no_finite_input_fires_clamp :
  ~ (exists M Z : float,
       is_finite M = true /\ is_finite Z = true /\
       clamp_fires ref_libm app_globals M Z = true).
Proof.
  intros (M & Z & HM & _ & Hfire).
  rewrite (clamp_never_fires ref_libm M Z ref_exp_sign ref_pow_sign
             (is_finite_not_nan M HM)) in Hfire.
  discriminate.
Qed.

(** C3: the function returns a string and raises nothing, for every pair of
    floats and every math library; the floor leaves [0.1] as it is, and
    [(0.1, -1.0)] gives a well-formed percentage with the reference library. *)
Theorem C3_total_never_raises :
  (forall (L : libm) (M Z : float), exists s : string, app_calculate L M Z = Ok s) /\
  py_max 0.1 1e-5 = 0.1%float /\
  (exists s : string,
     app_calculate ref_libm 0.1 (-1.0) = Ok s /\ matches_pct s = true).
Proof.
  split; [ | split ].
  - intros L M Z. eexists. apply app_calculate_eq.
  - reflexivity.
  - exists "0.15%"%string. split; vm_compute; reflexivity.
Qed.

(** C4 (as the code behaves): at the solar reference point [(1.0, 0.0)] the
    function returns ["2.21%"]: the metallicity and power factors are exactly
    one, the mass term is about [0.10632], [phi] about [0.022551], the base
    about [1.019373], [eq_minus_Phi] about [0.977913] and [P] about
    [0.022087]. *)
Theorem C4_solar_reference_point :
  app_calculate ref_libm 1.0 0.0 = Ok "2.21%"%string /\
  Z_term ref_libm app_globals 0.0 = 1.0%float /\
  M_term ref_libm app_globals 1.0 = 0.10632019824202713%float /\
  Phi ref_libm app_globals 1.0 0.0 = 0.022550514047133954%float /\
  base ref_libm app_globals 1.0 0.0 = 1.0193731466178928%float /\
  eq_minus_Phi ref_libm app_globals 1.0 0.0 = 0.97791271863066931%float /\
  P ref_libm app_globals 1.0 0.0 = 0.022087281369330691%float.
Proof. split_conj; vm_compute; reflexivity. Qed.

(** C4, refuted as stated: the result at [(1.0, 0.0)] is not ["2.19%"]. *)
Lemma C4_not_2_19 : app_calculate ref_libm 1.0 0.0 <> Ok "2.19%"%string.
Proof. vm_compute. discriminate. Qed.



(** C6: for every [M] in [[0.1, 2.5]] and every [Z] in [[-1.0, 0.5]] the
    returned string matches [^-?\d+\.\d{2}%$] and the number it encodes
    lies in [[0, 100]] (in hundredths: between 0 and 10000).  The math
    library is assumed to return numbers of the right sign and size on the
    arguments the slider domain produces. *)
Theorem C6_slider_domain_output (L : libm) (M Z : float) :
  pow_sign_law L -> pow_number_law L -> pow_unit_law L -> pow_ten_law L ->
  exp_range_law L ->
  (0.1 <=? M)%float = true -> (M <=? 2.5)%float = true ->
  (-1.0 <=? Z)%float = true -> (Z <=? 0.5)%float = true ->
  exists s h,
    app_calculate L M Z = Ok s /\ matches_pct s = true /\
    parse_pct s = Some h /\ 0 <= h <= 10000.
Proof.
  intros Hsign Hnum Hunit Hten Hexp HM1 HM2 HZ1 HZ2.
  pose proof (Phi_on_domain L M Z Hsign Hnum Hten Hexp HM1 HM2 HZ1 HZ2) as HPhi.
  destruct (percent_of_probability L M Z Hunit HPhi) as (s & h & Hs & Hp & Hh & _).
  exists s, h. split; [ assumption | ]. split; [ | split; assumption ].
  unfold matches_pct. rewrite Hp. reflexivity.
Qed.

Lemma C6_witness :
  exists s h,
    app_calculate ref_libm 1.0 0.0 = Ok s /\ matches_pct s = true /\
    parse_pct s = Some h /\ 0 <= h <= 10000.
Proof.
  apply (C6_slider_domain_output ref_libm 1.0 0.0
           ref_pow_sign ref_pow_number ref_pow_unit ref_pow_ten ref_exp_range);
    reflexivity.
Defined.

(** C7: two calls, one after the other, with the same arguments end the
    same way, whatever the globals hold when the first one starts.  The
    body binds no global, so the first call leaves the globals as it found
    them and the second call starts from the same globals; the outcome
    depends on the globals only through the five constants of lines 5 to
    9, which the body reads and never writes; and once the module's top
    level has run, both calls return the same string, the one
    [calculate_exoplanet_probability] computes from the arguments. *)
Theorem C7_deterministic (L : libm) (g : env) (M Z : float) :
  (snd (call_calculate L g M Z) = g /\
   call_calculate L (snd (call_calculate L g M Z)) M Z = call_calculate L g M Z) /\
  (forall g' : env, agree_on constant_names g g' ->
     fst (call_calculate L g' M Z) = fst (call_calculate L g M Z)) /\
  (exists s : string,
     call_calculate L (module_env L) M Z = (Returned s, module_env L) /\
     call_calculate L (snd (call_calculate L (module_env L) M Z)) M Z =
       (Returned s, module_env L) /\
     app_calculate L M Z = Ok s).
Proof.
  split; [ | split ].
  - destruct (call_frame L "stellar_mass" "metallicity" calculate_body g g M Z
                calculate_body_binds_no_global (agree_on_refl _ g)) as [Hs _].
    fold (call_calculate L g M Z) in Hs. split; [ assumption | ].
    rewrite Hs. reflexivity.
  - intros g' Hag.
    apply (call_frame L "stellar_mass" "metallicity" calculate_body g g' M Z
             calculate_body_binds_no_global (calculate_body_reads g g' Hag)).
  - pose proof (call_calculate_eq L app_globals (module_env L) M Z (module_env_holds L))
      as Hc.
    fold (app_calculate L M Z) in Hc. rewrite app_calculate_eq in Hc. cbn [outcome_of] in Hc.
    exists (format_2f (P_percent L app_globals M Z) ++ "%")%string.
    rewrite Hc. cbn [snd]. rewrite Hc. split_conj; reflexivity.
Qed.

Lemma C7_witness :
  (snd (call_calculate ref_libm (module_env ref_libm) 1.0 0.0) = module_env ref_libm /\
   call_calculate ref_libm (snd (call_calculate ref_libm (module_env ref_libm) 1.0 0.0))
     1.0 0.0 = call_calculate ref_libm (module_env ref_libm) 1.0 0.0) /\
  (forall g' : env, agree_on constant_names (module_env ref_libm) g' ->
     fst (call_calculate ref_libm g' 1.0 0.0) =
     fst (call_calculate ref_libm (module_env ref_libm) 1.0 0.0)) /\
  (exists s : string,
     call_calculate ref_libm (module_env ref_libm) 1.0 0.0 =
       (Returned s, module_env ref_libm) /\
     call_calculate ref_libm (snd (call_calculate ref_libm (module_env ref_libm) 1.0 0.0))
       1.0 0.0 = (Returned s, module_env ref_libm) /\
     app_calculate ref_libm 1.0 0.0 = Ok s).
Proof. exact (C7_deterministic ref_libm (module_env ref_libm) 1.0 0.0). Defined.

(** C8: for every finite [p] in [[0, 1]], [p * 100] printed with [.2f] and a
    percent sign has digits, a point, exactly two digits and a trailing [%]
    (it matches [^-?\d+\.\d{2}%$]), encodes a value between 0.00 and
    100.00, and contains no comma. *)
Theorem C8_two_decimals (p : float) :
  is_finite p = true -> (0 <=? p)%float = true -> (p <=? 1)%float = true ->
  exists h,
    parse_pct (format_2f (p * 100) ++ "%") = Some h /\ 0 <= h <= 10000 /\
    matches_pct (format_2f (p * 100) ++ "%") = true /\
    has_char ","%char (format_2f (p * 100) ++ "%") = false.
Proof.
  intros _ H0 H1. destruct (mul_hundred_unit p H0 H1) as [Hp0 Hp1].
  destruct (format_percent_range _ Hp0 Hp1) as (h & Hparse & Hh & Hc).
  exists h. split; [ assumption | ]. split; [ assumption | ]. split; [ | assumption ].
  unfold matches_pct. rewrite Hparse. reflexivity.
Qed.

Lemma C8_witness :
  exists h,
    parse_pct (format_2f (0.5 * 100) ++ "%") = Some h /\ 0 <= h <= 10000 /\
    matches_pct (format_2f (0.5 * 100) ++ "%") = true /\
    has_char ","%char (format_2f (0.5 * 100) ++ "%") = false.
Proof. apply (C8_two_decimals 0.5); reflexivity. Defined.

(** C9 (as the code behaves): for every finite pair [(M, Z)] the potential
    [Phi] is either not a number or at least zero; it is never negative. *)
Theorem C9_potential_not_negative (L : libm) (M Z : float) :
  exp_sign_law L -> pow_sign_law L ->
  is_finite M = true -> is_finite Z = true ->
  is_nan (Phi L app_globals M Z) = true \/ (0 <=? Phi L app_globals M Z)%float = true.
Proof.
  intros Hexp Hpow HM _. apply not_neg_cases.
  apply Phi_not_neg; [ assumption | assumption | apply is_finite_not_nan; assumption ].
Qed.

Lemma C9_witness :
  is_nan (Phi ref_libm app_globals 1.0 0.0) = true \/
  (0 <=? Phi ref_libm app_globals 1.0 0.0)%float = true.
Proof.
  apply (C9_potential_not_negative ref_libm 1.0 0.0 ref_exp_sign ref_pow_sign); reflexivity.
Defined.

(** C9, refuted as stated: at the finite pair [(1000, 400)] the metallicity
    term overflows to infinity, the mass term underflows to zero, and [Phi]
    is not a number, hence not [>= 0]. *)
Lemma C9_potential_nan_at_1000_400 :
  is_finite 1000 = true /\ is_finite 400 = true /\
  Z_term ref_libm app_globals 400 = infinity /\
  M_term ref_libm app_globals 1000 = 0%float /\
  is_nan (Phi ref_libm app_globals 1000 400) = true /\
  (0 <=? Phi ref_libm app_globals 1000 400)%float = false.
Proof. split_conj; vm_compute; reflexivity. Qed.

(** C10 (as the code behaves): for every finite pair [(M, Z)] with a finite
    [Phi], the base is at least one, the clamp is not taken,
    [eq_minus_Phi] lies in [[0, 1]] and [P] lies in [[0, 1]]. *)
Theorem C10_base_at_least_one (L : libm) (M Z : float) :
  exp_sign_law L -> pow_sign_law L -> pow_unit_law L ->
  is_finite M = true -> is_finite Z = true ->
  is_finite (Phi L app_globals M Z) = true ->
  (1 <=? base_raw L app_globals M Z)%float = true /\
  clamp_fires L app_globals M Z = false /\
  ((0 <=? eq_minus_Phi L app_globals M Z)%float = true /\
   (eq_minus_Phi L app_globals M Z <=? 1)%float = true) /\
  ((0 <=? P L app_globals M Z)%float = true /\
   (P L app_globals M Z <=? 1)%float = true).
Proof.
  intros Hexp Hpow Hunit HM _ HPhi.
  apply is_finite_not_nan in HM. apply is_finite_not_nan in HPhi.
  split; [ | split ].
  - destruct (base_raw_cases L M Z Hexp Hpow HM) as [[Hnan _] | [_ Hge]];
      [ congruence | assumption ].
  - apply clamp_never_fires; assumption.
  - apply probability_unit; assumption.
Qed.

Lemma C10_witness :
  (1 <=? base_raw ref_libm app_globals 1.0 0.0)%float = true /\
  clamp_fires ref_libm app_globals 1.0 0.0 = false /\
  ((0 <=? eq_minus_Phi ref_libm app_globals 1.0 0.0)%float = true /\
   (eq_minus_Phi ref_libm app_globals 1.0 0.0 <=? 1)%float = true) /\
  ((0 <=? P ref_libm app_globals 1.0 0.0)%float = true /\
   (P ref_libm app_globals 1.0 0.0 <=? 1)%float = true).
Proof.
  apply (C10_base_at_least_one ref_libm 1.0 0.0 ref_exp_sign ref_pow_sign ref_pow_unit);
    reflexivity.
Defined.

(** C10, refuted as stated: at [(1.0, 280.0)] [Phi] is finite, yet
    [eq_minus_Phi] underflows to zero (outside [(0, 1]]) and [P] is exactly
    one (outside [[0, 1)]); at [(1.0, 20.0)] [P] is already one. *)
Lemma C10_probability_reaches_one :
  is_finite (Phi ref_libm app_globals 1.0 280.0) = true /\
  (0 <? eq_minus_Phi ref_libm app_globals 1.0 280.0)%float = false /\
  (P ref_libm app_globals 1.0 280.0 <? 1)%float = false /\
  is_finite (Phi ref_libm app_globals 1.0 20.0) = true /\
  P ref_libm app_globals 1.0 20.0 = 1%float.
Proof. split_conj; vm_compute; reflexivity. Qed.

(* ================================================================== *)
(** * Part X: further properties of the program *)
(* ================================================================== *)

Lemma ref_pow_nan_exponent : pow_nan_exponent_law ref_libm.
Proof.
  intros x Hx. cbn [np_power ref_libm]. unfold ref_power.
  change (Prim2SF nan) with S754_nan. cbv iota. rewrite Hx. reflexivity.
Qed.

(** ** Not-a-number flows to the output *)

Lemma nan_potential_output (L : libm) (M Z : float) :
  pow_nan_law L -> is_nan (Phi L app_globals M Z) = true ->
  app_calculate L M Z = Ok "nan%"%string.
Proof.
  intros Hnan HPhi. rewrite app_calculate_eq. do 2 f_equal.
  unfold P_percent, P, eq_minus_Phi, base, clamp_fires.
  assert (Hb : base_raw L app_globals M Z = nan).
  { apply nan_of_shape. unfold base_raw.
    pose proof (sub_nan_r 1.0 _ (mul_nan_r (1.0 - Q_INDEX app_globals) _ HPhi)) as H.
    rewrite is_nan_shape in H. destruct (Prim2SF _); try discriminate. reflexivity. }
  rewrite Hb. change (nan <=? 0)%float with false. cbv iota.
  assert (He : np_power L nan (q_exponent app_globals) = nan).
  { apply nan_of_shape. pose proof (Hnan (q_exponent app_globals) eq_refl) as H.
    rewrite is_nan_shape in H. destruct (Prim2SF _); try discriminate. reflexivity. }
  rewrite He. reflexivity.
Qed.

Lemma nan_mass_potential (L : libm) (M Z : float) :
  pow_nan_law L -> is_nan M = true -> is_nan (Phi L app_globals M Z) = true.
Proof.
  intros Hnan HM. unfold Phi, M_term. apply mul_nan_r. apply mul_nan_l.
  assert (HMn : M = nan).
  { apply nan_of_shape. rewrite is_nan_shape in HM.
    destruct (Prim2SF M); try discriminate. reflexivity. }
  subst M. change (py_max nan 1e-5) with nan. apply Hnan. reflexivity.
Qed.

Lemma nan_metallicity_potential (L : libm) (M Z : float) :
  pow_nan_exponent_law L -> is_nan Z = true -> is_nan (Phi L app_globals M Z) = true.
Proof.
  intros Hnan HZ. unfold Phi, Z_term. apply mul_nan_l. apply mul_nan_r.
  assert (HZn : Z = nan).
  { apply nan_of_shape. rewrite is_nan_shape in HZ.
    destruct (Prim2SF Z); try discriminate. reflexivity. }
  subst Z. change (A_MET app_globals * nan)%float with nan. apply Hnan. reflexivity.
Qed.

(** X2: a NaN stellar mass or a NaN metallicity is not rejected and not
    replaced by the mass floor: the function returns the string ["nan%"]. *)
Theorem nan_input_gives_nan_percent (L : libm) (M Z : float) :
  pow_nan_law L -> pow_nan_exponent_law L ->
  is_nan M = true \/ is_nan Z = true ->
  app_calculate L M Z = Ok "nan%"%string.
Proof.
  intros Hn1 Hn2 [HM | HZ]; apply nan_potential_output; try assumption.
  - apply nan_mass_potential; assumption.
  - apply nan_metallicity_potential; assumption.
Qed.

Lemma nan_input_witness : app_calculate ref_libm nan 0.0 = Ok "nan%"%string.
Proof.
  apply (nan_input_gives_nan_percent ref_libm nan 0.0 ref_pow_nan ref_pow_nan_exponent).
  left. reflexivity.
Defined.

(** ** The probability is never negative zero *)

Lemma one_sub_unit_round (x : float) :
  (0 <=? x)%float = true -> (x <=? 1)%float = true ->
  round_le (Prim2SF (1 - x)%float) false one_m (-52).
Proof.
  rewrite !leb_spec, sub_spec, Prim2SF_one, Prim2SF_zero.
  pose proof (float_view x) as Hv.
  destruct (Prim2SF x) as [ s | s | | s m e ]; intros H0 H1.
  - right. exists one_m, (-52). split; [ reflexivity | right; split; lia ].
  - destruct s; discriminate.
  - discriminate.
  - destruct s; [ discriminate | ]. destruct Hv as [Hcan Hbnd].
    apply SFleb_pos_pos in H1.
    unfold SF64sub. rewrite SFsub_finite. cbn [cond_Zopp].
    set (ez := Z.min (-52) e).
    pose proof (lexle_value m e one_m (-52) ez Hcan canon_one H1 ltac:(lia) ltac:(lia)) as Hval.
    assert (Hp1 : 0 < 2 ^ (e - ez)) by (apply Z.pow_pos_nonneg; lia).
    destruct (Zpos one_m * 2 ^ (-52 - ez) - Zpos m * 2 ^ (e - ez)) as [ | N | N ] eqn:HN;
      try lia.
    + left. reflexivity.
    + cbn [binary_normalize].
      apply br_upper with (k := ez); try lia; [ exact canon_one | ].
      rewrite Z.sub_diag, Z.pow_0_r. lia.
Qed.

Lemma SFmul_finite_comm sa ma ea sx mx ex :
  SFmul prec emax (S754_finite sa ma ea) (S754_finite sx mx ex) =
  SFmul prec emax (S754_finite sx mx ex) (S754_finite sa ma ea).
Proof. cbn [SFmul]. rewrite (Pos.mul_comm ma mx), (Z.add_comm ea ex), (xorb_comm sa sx). reflexivity. Qed.

Lemma mul_hundred_round (x : float) :
  round_le (Prim2SF x) false one_m (-52) ->
  round_le (Prim2SF (x * 100)%float) false hundred_m (-46).
Proof.
  intro Hx. rewrite mul_spec, Prim2SF_hundred. unfold SF64mul.
  pose proof (float_view x) as Hv.
  destruct Hx as [Hz | (m & e & Hf & Hlex)]; rewrite ?Hz, ?Hf in *.
  - left. reflexivity.
  - destruct Hv as [Hc _].
    rewrite SFmul_finite_comm.
    apply (mul_round_le false hundred_m (-46) false m e one_m (-52)); try assumption;
      try lia; first [ canon_const | numeric ].
Qed.

Lemma format_unsigned_percent (x : float) :
  round_le (Prim2SF x) false hundred_m (-46) ->
  exists h, parse_pct (format_2f x ++ "%") = Some h /\ 0 <= h <= 10000 /\
            has_char "-"%char (format_2f x ++ "%") = false /\
            has_char ","%char (format_2f x ++ "%") = false.
Proof.
  intro Hx. unfold format_2f. pose proof (float_view x) as Hv.
  destruct Hx as [Hz | (m & e & Hf & Hlex)]; rewrite ?Hz, ?Hf in *.
  - exists 0. split; [ reflexivity | split; [ lia | split; reflexivity ] ].
  - destruct Hv as [Hc _].
    pose proof (hundredths_nonneg m e) as H0.
    pose proof (hundredths_le m e Hc Hlex) as H1.
    exists (hundredths m e). split; [ apply parse_pct_fixed2; assumption | ].
    split; [ lia | ]. destruct (fixed2_plain _ H0). auto.
Qed.

(** X1: whatever the two floats are, the function returns either ["nan%"]
    or a string matching [^\d+\.\d{2}%$] whose value lies between 0.00 and
    100.00; it never prints a minus sign, a comma, [inf%] or [-inf%]. *)
Theorem output_is_nan_or_percentage (L : libm) (M Z : float) :
  exp_sign_law L -> pow_sign_law L -> pow_unit_law L -> pow_nan_law L ->
  app_calculate L M Z = Ok "nan%"%string \/
  exists s h,
    app_calculate L M Z = Ok s /\ parse_pct s = Some h /\ 0 <= h <= 10000 /\
    has_char "-"%char s = false /\ has_char ","%char s = false.
Proof.
  intros Hexp Hpow Hunit Hnan.
  destruct (is_nan M) eqn:HM.
  - left. apply nan_potential_output; [ assumption | ].
    apply nan_mass_potential; assumption.
  - destruct (not_neg_cases _ (Phi_not_neg L M Z Hexp Hpow HM)) as [HPhi | HPhi].
    + left. apply nan_potential_output; assumption.
    + right. pose proof (base_at_least_one L M Z HPhi) as Hge.
      assert (Heq : (0 <=? eq_minus_Phi L app_globals M Z)%float = true /\
                    (eq_minus_Phi L app_globals M Z <=? 1)%float = true).
      { unfold eq_minus_Phi, base, clamp_fires. rewrite (ge_one_not_le_zero _ Hge).
        apply Hunit; [ assumption | exact q_exponent_negative ]. }
      destruct Heq as [H0 H1].
      pose proof (mul_hundred_round _ (one_sub_unit_round _ H0 H1)) as Hr.
      destruct (format_unsigned_percent _ Hr) as (h & Hp & Hh & Hm & Hc).
      exists (format_2f (P_percent L app_globals M Z) ++ "%")%string, h.
      split; [ apply app_calculate_eq | auto ].
Qed.

Lemma output_range_witness :
  app_calculate ref_libm 1.0 20.0 = Ok "nan%"%string \/
  exists s h,
    app_calculate ref_libm 1.0 20.0 = Ok s /\ parse_pct s = Some h /\ 0 <= h <= 10000 /\
    has_char "-"%char s = false /\ has_char ","%char s = false.
Proof.
  apply (output_is_nan_or_percentage ref_libm 1.0 20.0
           ref_exp_sign ref_pow_sign ref_pow_unit ref_pow_nan).
Defined.

(** ** When the call raises *)

Lemma value_lt_of_exp_lt m1 e1 m2 e2 k :
  canon m1 e1 -> canon m2 e2 -> e1 < e2 -> k <= e1 ->
  Zpos m1 * 2 ^ (e1 - k) < Zpos m2 * 2 ^ (e2 - k).
Proof.
  intros H1 H2 Hlt Hk.
  destruct (canon_bounds m1 e1 H1) as (He1 & Hm1hi & _).
  destruct (canon_bounds m2 e2 H2) as (He2 & _ & Hm2lo).
  assert (Hm2 : 2 ^ 52 <= Zpos m2) by (apply Hm2lo; lia).
  apply Z.lt_le_trans with (2 ^ 53 * 2 ^ (e1 - k)).
  - apply Z.mul_lt_mono_pos_r; [ apply Z.pow_pos_nonneg; lia | assumption ].
  - apply Z.le_trans with (2 ^ 52 * 2 ^ (e2 - k)).
    + rewrite <- !pow2_split by lia. apply Z.pow_le_mono_r; lia.
    + apply Z.mul_le_mono_nonneg_r; [ apply Z.pow_nonneg; lia | lia ].
Qed.

(** Two canonical floats of equal value are the same float. *)
Lemma canon_unique m1 e1 m2 e2 k :
  canon m1 e1 -> canon m2 e2 -> k <= e1 -> k <= e2 ->
  Zpos m1 * 2 ^ (e1 - k) = Zpos m2 * 2 ^ (e2 - k) -> m1 = m2 /\ e1 = e2.
Proof.
  intros H1 H2 Hk1 Hk2 Hv.
  destruct (Z.lt_trichotomy e1 e2) as [Hlt | [Heq | Hgt]].
  - pose proof (value_lt_of_exp_lt m1 e1 m2 e2 k H1 H2 Hlt Hk1). lia.
  - subst e2. split; [ | reflexivity ].
    assert (0 < 2 ^ (e1 - k)) by (apply Z.pow_pos_nonneg; lia).
    apply Pos2Z.inj. nia.
  - pose proof (value_lt_of_exp_lt m2 e2 m1 e1 k H2 H1 Hgt Hk2). lia.
Qed.

Lemma binary_normalize_nonzero (N e : Z) :
  N <> 0 -> -1074 <= e -> sf_zero (binary_normalize prec emax N e false) = false.
Proof.
  intros HN He. destruct N as [ | p | p ]; [ congruence | | ]; cbn [binary_normalize].
  - assert (Hr : round_ge (binary_round prec emax false p e) false 1 (-1074)).
    { assert (0 < 2 ^ (e - -1074)) by (apply Z.pow_pos_nonneg; lia).
      apply br_lower with (k := -1074); try lia; try canon_const. }
    destruct Hr as [-> | (m' & e' & -> & _)]; reflexivity.
  - assert (Hr : round_ge (binary_round prec emax true p e) true 1 (-1074)).
    { assert (0 < 2 ^ (e - -1074)) by (apply Z.pow_pos_nonneg; lia).
      apply br_lower with (k := -1074); try lia; try canon_const. }
    destruct Hr as [-> | (m' & e' & -> & _)]; reflexivity.
Qed.

(** [1.0 - q] compares equal to zero only for [q = 1.0]. *)
Lemma one_sub_zero_iff (q : float) : (1.0 - q =? 0)%float = true <-> q = 1.0%float.
Proof.
  split; [ | intros ->; reflexivity ].
  rewrite eqb_zero_shape, sub_spec, Prim2SF_one. unfold SF64sub.
  pose proof (float_view q) as Hv. intro H.
  apply Prim2SF_inj. rewrite Prim2SF_one.
  destruct (Prim2SF q) as [ s | s | | s m e ]; try discriminate.
  destruct Hv as [Hc _]. rewrite SFsub_finite in H. cbn [cond_Zopp] in H.
  set (ez := Z.min (-52) e) in *.
  destruct (canon_bounds m e Hc) as (He & _ & _).
  destruct (Z.eq_dec (Zpos one_m * 2 ^ (-52 - ez) - cond_Zopp s (Zpos m * 2 ^ (e - ez))) 0)
    as [Hz | Hnz].
  - assert (Hp1 : 0 < 2 ^ (e - ez)) by (apply Z.pow_pos_nonneg; lia).
      assert (Hp2 : 0 < 2 ^ (-52 - ez)) by (apply Z.pow_pos_nonneg; lia).
      destruct s; cbn [cond_Zopp] in Hz; [ lia | ].
      destruct (canon_unique one_m (-52) m e ez canon_one Hc ltac:(lia) ltac:(lia)
                  ltac:(lia)) as [<- <-].
    reflexivity.
  - rewrite (binary_normalize_nonzero _ ez Hnz ltac:(lia)) in H. discriminate.
Qed.

(** X3: over arbitrary module constants the call raises exactly when
    [Q_INDEX] is [1.0] (the division of line 31 is then by zero), the
    exception is [ZeroDivisionError], and otherwise the call returns a
    string. *)
Theorem raises_iff_q_index_is_one (L : libm) (G : module_globals) (M Z : float) :
  (calculate_exoplanet_probability L G M Z = Raise ZeroDivisionError <->
   Q_INDEX G = 1.0%float) /\
  (Q_INDEX G <> 1.0%float ->
   exists s, calculate_exoplanet_probability L G M Z = Ok s).
Proof.
  rewrite calculate_unfold. unfold py_truediv.
  destruct (1.0 - Q_INDEX G =? 0)%float eqn:E; cbn [bind].
  - apply one_sub_zero_iff in E. split; [ split; auto | ]. intro H. contradiction.
  - split.
    + split; [ discriminate | ]. intro Hq. apply one_sub_zero_iff in Hq. congruence.
    + intros _. eexists. reflexivity.
Qed.

(** ** The clamp over arbitrary module constants *)

Lemma ge_one_sub_nonpos (q : float) :
  (1 <=? q)%float = true -> (1 - q <=? 0)%float = true.
Proof.
  rewrite leb_zero_r, leb_spec, sub_spec, Prim2SF_one. unfold SF64sub.
  pose proof (float_view q) as Hv.
  destruct (Prim2SF q) as [ s | [ | ] | | [ | ] m e ]; try discriminate; try reflexivity.
  intro H. destruct Hv as [Hc _]. apply SFleb_pos_pos in H.
  rewrite SFsub_finite. cbn [cond_Zopp].
  set (ez := Z.min (-52) e).
  pose proof (lexle_value one_m (-52) m e ez canon_one Hc H ltac:(lia) ltac:(lia)) as Hval.
  destruct (Zpos one_m * 2 ^ (-52 - ez) - Zpos m * 2 ^ (e - ez)) as [ | N | N ] eqn:HN;
    try lia; cbn [binary_normalize]; [ reflexivity | ].
  destruct (br_sign_shape true N ez) as [-> | [-> | (m' & e' & ->)]]; reflexivity.
Qed.

Lemma mul_nonpos_nonneg (c x : float) :
  (c <=? 0)%float = true -> (0 <=? x)%float = true ->
  is_nan (c * x) = true \/ (c * x <=? 0)%float = true.
Proof.
  rewrite leb_zero_l, !leb_zero_r, is_nan_shape, mul_spec. unfold SF64mul.
  pose proof (float_view c) as Hc. pose proof (float_view x) as Hx.
  destruct (Prim2SF c) as [ sc | sc | | sc mc ec ];
    destruct (Prim2SF x) as [ sx | sx | | sx mx ex ]; intros H1 H2;
    try (destruct sc); try (destruct sx); try discriminate;
    try (left; reflexivity); try (right; reflexivity).
  destruct Hc as [Hc _], Hx as [Hx _]. right.
  destruct (SFmul_finite_shape true mc ec false mx ex Hc Hx)
    as [-> | [-> | (m' & e' & ->)]]; reflexivity.
Qed.

Lemma nonneg_not_neg (x : float) : (0 <=? x)%float = true -> (x <? 0)%float = false.
Proof.
  rewrite leb_zero_l, ltb_zero_r.
  destruct (Prim2SF x) as [ [ | ] | [ | ] | | [ | ] m e ]; try discriminate; reflexivity.
Qed.

Lemma Phi_not_neg_general (L : libm) (G : module_globals) (M Z : float) :
  exp_sign_law L -> pow_sign_law L -> (0 <=? KAPPA G)%float = true -> is_nan M = false ->
  (Phi L G M Z <? 0)%float = false.
Proof.
  intros Hexp Hpow Hk HM. unfold Phi, Z_term, M_term.
  apply mul_not_neg; [ apply mul_not_neg | apply mul_not_neg ].
  - apply nonneg_not_neg. assumption.
  - apply Hpow. reflexivity.
  - apply Hpow. apply py_max_floor_pos. assumption.
  - apply Hexp.
Qed.

(** X6: the test of line 28 is false for every choice of the module
    constants with [KAPPA >= 0] and [Q_INDEX >= 1], not only for the
    values of lines 5 to 9: [base] is then at least one or not a number. *)
Theorem clamp_dead_for_q_at_least_one (L : libm) (G : module_globals) (M Z : float) :
  exp_sign_law L -> pow_sign_law L ->
  (0 <=? KAPPA G)%float = true -> (1 <=? Q_INDEX G)%float = true ->
  is_nan M = false ->
  clamp_fires L G M Z = false /\
  (is_nan (base L G M Z) = true \/ (1 <=? base L G M Z)%float = true).
Proof.
  intros Hexp Hpow Hk Hq HM.
  assert (Hb : is_nan (base_raw L G M Z) = true \/ (1 <=? base_raw L G M Z)%float = true).
  { unfold base_raw.
    destruct (not_neg_cases _ (Phi_not_neg_general L G M Z Hexp Hpow Hk HM)) as [Hn | Hp].
    - left. apply sub_nan_r, mul_nan_r. assumption.
    - destruct (mul_nonpos_nonneg _ _ (ge_one_sub_nonpos _ Hq) Hp) as [Hn | Hle].
      + left. apply sub_nan_r. assumption.
      + right. apply one_sub_nonpos. assumption. }
  assert (Hc : clamp_fires L G M Z = false).
  { unfold clamp_fires. destruct Hb as [Hn | Hge];
      [ apply nan_not_le | apply ge_one_not_le_zero ]; assumption. }
  split; [ assumption | ]. unfold base. rewrite Hc. assumption.
Qed.

Lemma clamp_dead_witness :
  clamp_fires ref_libm app_globals 1.0 0.0 = false /\
  (is_nan (base ref_libm app_globals 1.0 0.0) = true \/
   (1 <=? base ref_libm app_globals 1.0 0.0)%float = true).
Proof.
  apply (clamp_dead_for_q_at_least_one ref_libm app_globals 1.0 0.0
           ref_exp_sign ref_pow_sign); reflexivity.
Defined.

Lemma ref_pow_zero : pow_zero_law ref_libm.
Proof.
  intro y.
  split; intro H; [ rewrite ltb_zero_r in H | rewrite ltb_zero_l in H ];
    cbn [np_power ref_libm]; unfold ref_power;
    change (Prim2SF 0) with (S754_zero false);
    change (abs 0 =? 1)%float with false; change (abs 0 <? 1)%float with true;
    cbv iota; cbn [andb];
    destruct (Prim2SF y) as [ [ | ] | [ | ] | | [ | ] m e ]; try discriminate; reflexivity.
Qed.

(** X7: what the branch of line 29 leads to.  When the test of line 28
    succeeds, [base] is zero, and the result is decided by the sign of
    the exponent [1.0 / (1.0 - Q_INDEX)] alone: a negative exponent (as
    with the [Q_INDEX] of line 5) gives ["-inf%"], a positive one gives
    ["100.00%"]. *)
Theorem clamped_base_output (L : libm) (G : module_globals) (M Z : float) :
  pow_zero_law L -> Q_INDEX G <> 1.0%float -> clamp_fires L G M Z = true ->
  ((q_exponent G <? 0)%float = true ->
   calculate_exoplanet_probability L G M Z = Ok "-inf%"%string) /\
  ((0 <? q_exponent G)%float = true ->
   calculate_exoplanet_probability L G M Z = Ok "100.00%"%string).
Proof.
  intros Hz Hq Hc. rewrite calculate_unfold. unfold py_truediv.
  destruct (1.0 - Q_INDEX G =? 0)%float eqn:E.
  { apply one_sub_zero_iff in E. contradiction. }
  cbn [bind]. unfold base. rewrite Hc.
  change (1.0 / (1.0 - Q_INDEX G))%float with (q_exponent G).
  destruct (Hz (q_exponent G)) as [Hneg Hpos].
  split; intro Hs; [ rewrite (Hneg Hs) | rewrite (Hpos Hs) ]; reflexivity.
Qed.

Lemma clamped_base_witness :
  calculate_exoplanet_probability ref_libm negated_kappa_globals 1.0 0.0 = Ok "-inf%"%string.
Proof.
  apply (clamped_base_output ref_libm negated_kappa_globals 1.0 0.0 ref_pow_zero).
  - vm_compute. discriminate.
  - vm_compute. reflexivity.
  - vm_compute. reflexivity.
Defined.

(** ** The two ends of the output range *)

Lemma zero_cases (x : float) : (x =? 0)%float = true -> x = 0%float \/ x = neg_zero.
Proof.
  rewrite eqb_zero_shape. intro H.
  destruct (Prim2SF x) as [ [ | ] | | | ] eqn:E; try discriminate.
  - right. apply Prim2SF_inj. rewrite E. reflexivity.
  - left. apply Prim2SF_inj. rewrite E. reflexivity.
Qed.

Lemma ref_pow_one : pow_one_law ref_libm.
Proof.
  intro y. cbn [np_power ref_libm]. unfold ref_power.
  change (Prim2SF 1) with (S754_finite false one_m (-52)).
  change (1 =? 1)%float with true. change (abs 1 =? 1)%float with true. cbv iota.
  destruct (Prim2SF y) as [ sy | sy | | sy m e ]; try reflexivity.
  unfold pow_core.
  replace (ln_fx one_m (-52)) with 0 by (vm_compute; reflexivity).
  unfold mul_fx. rewrite Z.mul_0_r.
  destruct e; cbn; try reflexivity.
Qed.

Lemma ref_pow_inf : pow_inf_law ref_libm.
Proof.
  intros y Hy. cbn [np_power ref_libm]. unfold ref_power.
  rewrite ltb_zero_r in Hy.
  change (Prim2SF infinity) with (S754_infinity false).
  change (abs infinity =? 1)%float with false. change (abs infinity <? 1)%float with false.
  cbv iota.
  destruct (Prim2SF y) as [ [ | ] | [ | ] | | [ | ] m e ]; try discriminate; reflexivity.
Qed.

(** X4: a potential that is zero (the metallicity or the mass term has
    underflowed) gives exactly ["0.00%"]. *)
Theorem zero_potential_gives_zero_percent (L : libm) (M Z : float) :
  pow_one_law L -> (Phi L app_globals M Z =? 0)%float = true ->
  app_calculate L M Z = Ok "0.00%"%string.
Proof.
  intros Hone HPhi. rewrite app_calculate_eq.
  unfold P_percent, P, eq_minus_Phi, base, clamp_fires, base_raw.
  destruct (zero_cases _ HPhi) as [-> | ->].
  - change (1.0 - (1.0 - Q_INDEX app_globals) * 0)%float with 1%float.
    change (1 <=? 0)%float with false. cbv iota. rewrite Hone. reflexivity.
  - change (1.0 - (1.0 - Q_INDEX app_globals) * neg_zero)%float with 1%float.
    change (1 <=? 0)%float with false. cbv iota. rewrite Hone. reflexivity.
Qed.

Lemma zero_potential_witness : app_calculate ref_libm 1.0 (-400) = Ok "0.00%"%string.
Proof.
  apply (zero_potential_gives_zero_percent ref_libm 1.0 (-400) ref_pow_one).
  vm_compute. reflexivity.
Defined.

(** X5: a potential that has overflowed to infinity gives exactly
    ["100.00%"]. *)
Theorem infinite_potential_gives_full_percent (L : libm) (M Z : float) :
  pow_inf_law L -> Phi L app_globals M Z = infinity ->
  app_calculate L M Z = Ok "100.00%"%string.
Proof.
  intros Hinf HPhi. rewrite app_calculate_eq.
  unfold P_percent, P, eq_minus_Phi, base, clamp_fires, base_raw. rewrite HPhi.
  change (1.0 - (1.0 - Q_INDEX app_globals) * infinity)%float with infinity.
  change (infinity <=? 0)%float with false. cbv iota.
  rewrite (Hinf (q_exponent app_globals) q_exponent_negative). reflexivity.
Qed.

Lemma infinite_potential_witness : app_calculate ref_libm 1.0 400 = Ok "100.00%"%string.
Proof.
  apply (infinite_potential_gives_full_percent ref_libm 1.0 400 ref_pow_inf).
  vm_compute. reflexivity.
Defined.

(** ** The mass floor *)

Lemma SFcompare_number (a b : spec_float) :
  sf_nan a = false -> sf_nan b = false -> SFcompare a b <> None.
Proof.
  destruct a as [ [ | ] | [ | ] | | [ | ] ma ea ];
    destruct b as [ [ | ] | [ | ] | | [ | ] mb eb ]; intros Ha Hb;
    try discriminate; cbn [SFcompare];
    destruct (ea ?= eb); try discriminate;
    destruct (Pos.compare_cont Eq ma mb); discriminate.
Qed.

Lemma not_ltb_leb (a b : float) :
  is_nan a = false -> is_nan b = false -> (a <? b)%float = false -> (b <=? a)%float = true.
Proof.
  rewrite !is_nan_shape, ltb_spec, leb_spec. unfold SFltb, SFleb. intros Ha Hb.
  rewrite (SFcompare_swap (Prim2SF a) (Prim2SF b)).
  pose proof (SFcompare_number _ _ Ha Hb) as Hc.
  destruct (SFcompare (Prim2SF a) (Prim2SF b)) as [ [ | | ] | ];
    try discriminate; try reflexivity. congruence.
Qed.

(** X8: for every mass that is a number, the base handed to [np.power]
    on line 22 is at least [1e-5]; it is the mass itself or the floor;
    and a mass of at least [1e-5] is used unchanged. *)
Theorem effective_mass_floor (M : float) :
  is_nan M = false ->
  (1e-5 <=? py_max M 1e-5)%float = true /\
  (py_max M 1e-5 = M \/ py_max M 1e-5 = 1e-5%float) /\
  ((1e-5 <=? M)%float = true -> py_max M 1e-5 = M).
Proof.
  intro HM. unfold py_max. destruct (M <? 1e-5)%float eqn:E.
  - split; [ reflexivity | ]. split; [ right; reflexivity | ].
    intro Hle. apply leb_not_ltb in Hle. congruence.
  - split; [ apply not_ltb_leb; [ assumption | reflexivity | assumption ] | ].
    split; [ left; reflexivity | reflexivity ].
Qed.

Lemma effective_mass_floor_witness :
  (1e-5 <=? py_max (-3.0) 1e-5)%float = true /\
  (py_max (-3.0) 1e-5 = (-3.0)%float \/ py_max (-3.0) 1e-5 = 1e-5%float) /\
  ((1e-5 <=? -3.0)%float = true -> py_max (-3.0) 1e-5 = (-3.0)%float).
Proof.
  apply (effective_mass_floor (-3.0)). reflexivity.
Defined.

(** ** The rounding of the printed number *)

Lemma round_half_even_nearest (n d : Z) :
  0 < d ->
  2 * Z.abs (round_half_even n d * d - n) <= d /\
  (2 * Z.abs (round_half_even n d * d - n) = d -> Z.even (round_half_even n d) = true).
Proof.
  intro Hd. unfold round_half_even.
  pose proof (Z.div_mod n d ltac:(lia)) as Hdm.
  pose proof (Z.mod_pos_bound n d Hd) as Hr.
  set (q := n / d) in *. set (r := n mod d) in *.
  destruct (Z.compare_spec (2 * r) d) as [He | Hl | Hg].
  - destruct (Z.even q) eqn:Eq.
    + split; [ | intros _; assumption ]. nia.
    + split; [ nia | ]. intros _. rewrite Z.even_add, Eq. reflexivity.
  - split; [ nia | nia ].
  - split; [ nia | nia ].
Qed.

(** X9: the number printed for a finite [x = (-1)^s * m * 2^e] is the
    hundredth nearest to the exact value of [x], a tie going to the even
    hundredth: with [d = 2^max(0,-e)], [h * d] differs from
    [100 * m * 2^max(0,e)] by at most [d / 2]. *)
Theorem printed_value_is_nearest_hundredth
  (x : float) (s : bool) (m : positive) (e : Z) :
  Prim2SF x = S754_finite s m e ->
  exists h,
    parse_pct (format_2f x ++ "%") = Some (cond_Zopp s h) /\ 0 <= h /\
    2 * Z.abs (h * 2 ^ Z.max 0 (- e) - 100 * Zpos m * 2 ^ Z.max 0 e) <= 2 ^ Z.max 0 (- e) /\
    (2 * Z.abs (h * 2 ^ Z.max 0 (- e) - 100 * Zpos m * 2 ^ Z.max 0 e) = 2 ^ Z.max 0 (- e) ->
     Z.even h = true).
Proof.
  intro Hx. exists (hundredths m e).
  pose proof (hundredths_nonneg m e) as H0.
  split; [ | split; [ assumption | ] ].
  - unfold format_2f. rewrite Hx. destruct s; cbn [cond_Zopp].
    + apply parse_pct_neg_fixed2. assumption.
    + apply parse_pct_fixed2. assumption.
  - unfold hundredths. destruct e as [ | p | p ].
    + cbn [Z.max Z.opp Z.compare]. rewrite Z.pow_0_r. split; lia.
    + replace (Z.max 0 (- Zpos p)) with 0 by lia.
      replace (Z.max 0 (Zpos p)) with (Zpos p) by lia.
      rewrite Z.pow_0_r. split; lia.
    + replace (Z.max 0 (- Zneg p)) with (Zpos p) by lia.
      replace (Z.max 0 (Zneg p)) with 0 by lia.
      rewrite Z.pow_0_r, Z.mul_1_r.
      replace (100 * Zpos m) with (Zpos m * 100) by lia.
      apply round_half_even_nearest. apply Z.pow_pos_nonneg; lia.
Qed.

Lemma printed_value_witness :
  exists h,
    parse_pct (format_2f 0.125 ++ "%") = Some (cond_Zopp false h) /\ 0 <= h /\
    2 * Z.abs (h * 2 ^ Z.max 0 (- -55) - 100 * Zpos 4503599627370496 * 2 ^ Z.max 0 (-55))
      <= 2 ^ Z.max 0 (- -55) /\
    (2 * Z.abs (h * 2 ^ Z.max 0 (- -55) - 100 * Zpos 4503599627370496 * 2 ^ Z.max 0 (-55))
       = 2 ^ Z.max 0 (- -55) -> Z.even h = true).
Proof.
  apply (printed_value_is_nearest_hundredth 0.125 false 4503599627370496 (-55)).
  reflexivity.
Defined.
